(** * Survey flight-path planning engine: model and properties

    Shallow embedding of the planning core of the project scoping tool:
    [src/lib/qgc.ts] (spacing calculator, mission serializer) and the
    planning helpers of [src/App.tsx] (grid builder, leg stitching,
    battery segmentation, path orientation).

    Layout: the embedding comes first (modules [Js], [Geo], [Qgc], [App]
    and the concrete number and geometry instances), the properties
    follow. *)

From Stdlib Require Import String ZArith List Bool Lia QArith Qround Floats.
From Stdlib Require Import Lqa.
From ExtLib Require Import Structures.Monad Structures.MonadState Data.Monads.StateMonad.
Import ListNotations.

Set Implicit Arguments.

(* ================================================================== *)
(** ** JavaScript numbers *)
(* ================================================================== *)

(** The source computes on JavaScript [number]s.  The planner only uses a
    handful of operations on them, collected in the interface [Number];
    the planner is written once against the interface.  Two instances are
    given below: IEEE-754 binary64 ([float], what the program runs on) and
    the rationals (exact arithmetic). *)

Module Js.

Class Number (num : Type) : Type := {
  lit  : Z -> num;               (* integer literals: 0, 1, 60, 1000, ... *)
  nadd : num -> num -> num;      (* a + b *)
  nsub : num -> num -> num;      (* a - b *)
  nmul : num -> num -> num;      (* a * b *)
  ndiv : num -> num -> num;      (* a / b *)
  nrem : num -> num -> num;      (* a % b *)
  nneg : num -> num;             (* -a *)
  nltb : num -> num -> bool;     (* a < b   (b > a) *)
  nleb : num -> num -> bool;     (* a <= b  (b >= a) *)
  neqb : num -> num -> bool;     (* a === b *)
  nmax : num -> num -> num;      (* Math.max(a, b) *)
  nceil : num -> num             (* Math.ceil(a) *)
}.

Declare Scope js_scope.
Delimit Scope js_scope with js.
Notation "x + y" := (nadd x y) : js_scope.
Notation "x - y" := (nsub x y) : js_scope.
Notation "x * y" := (nmul x y) : js_scope.
Notation "x / y" := (ndiv x y) : js_scope.
Notation "x 'mod' y" := (nrem x y) : js_scope.
Notation "- x" := (nneg x) : js_scope.
Notation "x <? y" := (nltb x y) : js_scope.
Notation "x <=? y" := (nleb x y) : js_scope.
Notation "x >? y" := (nltb y x) : js_scope.
Notation "x =? y" := (neqb x y) : js_scope.
Notation "x <>? y" := (negb (neqb x y)) (at level 70) : js_scope.

(** Laws of idealised arithmetic.  [TotalOrder]: any two numbers compare
    (there is no NaN).  [ExactSum]: sums are not rounded.  Both hold of the
    rationals; binary64 satisfies the first on numbers other than NaN and
    the second on values whose sums are representable. *)
Class TotalOrder (num : Type) {N : Number num} : Prop := {
  nleb_false_ltb : forall a b : num, (a <=? b)%js = false -> (b <? a)%js = true;
  nltb_true_leb : forall a b : num, (a <? b)%js = true -> (a <=? b)%js = true;
  nltb_true_leb_false : forall a b : num, (a <? b)%js = true -> (b <=? a)%js = false
}.

Class ExactSum (num : Type) {N : Number num} : Prop := {
  nadd_assoc : forall a b c : num, (a + (b + c) = a + b + c)%js
}.

Arguments TotalOrder num {N}.
Arguments ExactSum num {N}.

(** Two numbers compare: [a <= b] holds exactly when [b < a] does not, and
    [b < a] gives [b <= a].  On binary64 this says neither is NaN. *)
Definition comparable {num : Type} {N : Number num} (a b : num) : Prop :=
  (a <=? b)%js = negb (b <? a)%js
  /\ ((b <? a)%js = true -> (b <=? a)%js = true).

End Js.
Export Js.

(* ------------------------------------------------------------------ *)
(** *** Instance: IEEE-754 binary64 *)

Module Float64.

Definition of_Z (z : Z) : float :=
  if (z <? 0)%Z then PrimFloat.opp (PrimFloat.of_uint63 (Uint63.of_Z (- z)))
  else PrimFloat.of_uint63 (Uint63.of_Z z).

(** [Math.ceil]: numbers with a non-negative binary exponent, zeros,
    infinities and NaN are returned unchanged; otherwise the integer part
    of the mantissa is taken and bumped when a positive fraction was cut.
    A negative number above -1 yields -0. *)
Definition ceil (x : float) : float :=
  match Prim2SF x with
  | S754_finite s m e =>
      if (0 <=? e)%Z then x
      else
        let q := Z.shiftr (Zpos m) (- e) in
        let exact := (Z.shiftl q (- e) =? Zpos m)%Z in
        if s then (if (q =? 0)%Z then (-0)%float else PrimFloat.opp (of_Z q))
        else of_Z (if exact then q else q + 1)
  | _ => x
  end.

(** [Math.max]: NaN if either argument is NaN, and +0 above -0. *)
Definition max (a b : float) : float :=
  if PrimFloat.is_nan a || PrimFloat.is_nan b then nan
  else if PrimFloat.ltb a b then b
  else if PrimFloat.ltb b a then a
  else if PrimFloat.is_zero a && PrimFloat.get_sign a then b else a.

(** The remainder operator [%]: exact, with the sign of the dividend. *)
Definition rem (x y : float) : float :=
  match Prim2SF x, Prim2SF y with
  | S754_nan, _ | _, S754_nan => nan
  | S754_infinity _, _ => nan
  | _, S754_zero _ => nan
  | S754_zero _, _ => x
  | S754_finite _ _ _, S754_infinity _ => x
  | S754_finite sx mx ex, S754_finite _ my ey =>
      let e := Z.min ex ey in
      let X := (Zpos mx * 2 ^ (ex - e))%Z in
      let Y := (Zpos my * 2 ^ (ey - e))%Z in
      let r := Z.rem X Y in
      if (r =? 0)%Z then (if sx then (-0)%float else 0%float)
      else
        let v := SF2Prim (binary_normalize 53 1024 r e false) in
        if sx then PrimFloat.opp v else v
  end.

#[export] Instance Number_float : Number float := {
  lit := of_Z;
  nadd := PrimFloat.add;
  nsub := PrimFloat.sub;
  nmul := PrimFloat.mul;
  ndiv := PrimFloat.div;
  nrem := rem;
  nneg := PrimFloat.opp;
  nltb := PrimFloat.ltb;
  nleb := PrimFloat.leb;
  neqb := PrimFloat.eqb;
  nmax := max;
  nceil := ceil
}.

End Float64.

(* ------------------------------------------------------------------ *)
(** *** Instance: exact rational arithmetic *)

Module Exact.

Definition ltb (a b : Q) : bool := negb (Qle_bool b a).

Definition max (a b : Q) : Q := if Qle_bool a b then b else a.

Definition ceil (a : Q) : Q := inject_Z (Qceiling a).

(** Truncated quotient, for the remainder with the dividend's sign. *)
Definition trunc (a : Q) : Z := Z.quot (Qnum a) (Zpos (Qden a)).

Definition rem (a b : Q) : Q := (a - b * inject_Z (trunc (a / b)))%Q.

#[export] Instance Number_Q : Number Q := {
  lit := inject_Z;
  nadd := Qplus;
  nsub := Qminus;
  nmul := Qmult;
  ndiv := Qdiv;
  nrem := rem;
  nneg := Qopp;
  nltb := ltb;
  nleb := Qle_bool;
  neqb := Qeq_bool;
  nmax := max;
  nceil := ceil
}.

End Exact.

(* ================================================================== *)
(** ** The geometry library *)
(* ================================================================== *)

(** The planner calls [@turf/turf] for all geodesy.  The library is not
    part of the repository; its operations are taken as an interface, in
    the units the source asks for (kilometres, degrees).  A call made
    outside a [try] block is taken to return normally; [lineSplit], which
    the source guards with [try]/[catch], may throw ([None]). *)

Module Geo.

Section Types.
Variable num : Type.

(** A coordinate pair: [[lon, lat]] at the library boundary, [[lat, lon]]
    inside the planner. *)
Definition Position : Type := (num * num)%type.

(** [GeoJSON.Polygon]: the list of its linear rings. *)
Definition Polygon : Type := list (list Position).

(** [GeoJSON.Feature<GeoJSON.LineString>]; the source reads
    [seg.geometry?.coordinates], which may be undefined. *)
Record LineFeature : Type := { geometry : option (list Position) }.

Definition lineString (coords : list Position) : LineFeature :=
  {| geometry := Some coords |}.

Class Turf : Type := {
  bbox : Polygon -> num * num * num * num;          (* [minX, minY, maxX, maxY] *)
  turfDistance : Position -> Position -> num;       (* distance(a, b), km *)
  destination : Position -> num -> num -> Position; (* (origin, km, bearing) *)
  transformTranslate : LineFeature -> num -> num -> LineFeature;
  lineSplit : LineFeature -> Polygon -> option (list LineFeature);
  booleanPointInPolygon : Position -> Polygon -> bool;
  midpoint : Position -> Position -> Position;
  turfLength : LineFeature -> num                   (* length(line), km *)
}.

End Types.

Arguments geometry {num} _.
Arguments lineString {num} _.

End Geo.
Export Geo.

(* ================================================================== *)
(** ** src/lib/qgc.ts *)
(* ================================================================== *)

Module Qgc.

Import Js.
Local Open Scope js_scope.

Definition MAV_CMD_NAV_WAYPOINT : Z := 16.
Definition MAV_CMD_DO_SET_CAM_TRIGG_DIST : Z := 206.
Definition MAV_FRAME_GLOBAL : Z := 0.
Definition MAV_FRAME_GLOBAL_RELATIVE_ALT : Z := 3.

Section Types.
Variable num : Type.

Record MissionItem : Type := {
  AMslAlt : option bool;
  autoContinue : bool;
  command : Z;
  doJumpId : Z;
  frame : Z;
  params : list num;
  type : string
}.

Record GeoFence : Type := {
  geoFence_version : Z;
  polygons : list unit;
  circles : list unit
}.

Record RallyPoints : Type := {
  rallyPoints_version : Z;
  points : list unit
}.

Record Mission : Type := {
  mission_version : Z;
  cruiseSpeed : option num;
  hoverSpeed : option num;
  items : list MissionItem;
  plannedHomePosition : num * num * num;   (* [lat, lon, alt MSL] *)
  vehicleType : option Z;
  firmwareType : option Z
}.

Record QgcPlan : Type := {
  fileType : string;
  geoFence : GeoFence;
  groundStation : string;
  mission : Mission;
  rallyPoints : RallyPoints;
  version : Z
}.

Record Camera : Type := {
  name : string;
  sensorWidth_mm : num;
  sensorHeight_mm : num;
  focalLength_mm : num;
  imageWidth_px : num;
  imageHeight_px : num;
  pixelPitch_um : option num
}.

Record Footprint : Type := {
  groundWidth_m : num;
  groundHeight_m : num
}.

Record Spacing : Type := {
  along_m : num;
  across_m : num;
  footprint : Footprint
}.

Record MakePlanOptions : Type := {
  homeLat : num;
  homeLon : num;
  relAlt_m : num;
  groundspeed_mps : option num;
  hover_mps : option num;
  trigger_m : num;
  gridLines : list (list (num * num));
  opts_firmwareType : option Z;
  opts_vehicleType : option Z
}.

End Types.

Section Code.
Context {num : Type} {N : Number num}.

(** *** Spacing calculator *)

Definition footprintMeters (heightAGL_m : num) (cam : Camera num) : Footprint num :=
  let groundWidth_m :=
    (heightAGL_m * (sensorWidth_mm cam / lit 1000)) / (focalLength_mm cam / lit 1000) in
  let groundHeight_m :=
    (heightAGL_m * (sensorHeight_mm cam / lit 1000)) / (focalLength_mm cam / lit 1000) in
  {| groundWidth_m := groundWidth_m; groundHeight_m := groundHeight_m |}.

Definition spacingFromOverlap (heightAGL_m : num) (cam : Camera num)
    (overlapFrac sidelapFrac : num) : Spacing num :=
  let fp := footprintMeters heightAGL_m cam in
  let along_m := groundHeight_m fp * (lit 1 - overlapFrac) in   (* trigger distance *)
  let across_m := groundWidth_m fp * (lit 1 - sidelapFrac) in   (* line spacing *)
  {| along_m := along_m; across_m := across_m; footprint := fp |}.

(** *** Mission writer *)

(** [let idCounter = 1] is module-level state shared by every call; the
    writer runs in a state monad over it.  The counter holds a whole number
    and stays far below 2^53 (an array has fewer than 2^32 entries), where
    [idCounter++] is exact, so it is kept as an integer. *)
Definition Writer : Type -> Type := state Z.

Import MonadNotation.
Local Open Scope monad_scope.

Definition nextId : Writer Z :=
  c <- get ;;
  put (c + 1)%Z ;;
  ret c.

Definition wp (lat lon relAlt_m : num) : Writer (MissionItem num) :=
  id <- nextId ;;
  ret {| AMslAlt := Some false;
         autoContinue := true;
         command := MAV_CMD_NAV_WAYPOINT;
         doJumpId := id;
         frame := MAV_FRAME_GLOBAL_RELATIVE_ALT;
         params := [lit 0; lit 0; lit 0; lit 0; lat; lon; relAlt_m];
         type := "SimpleItem" |}.

Definition camTrigDist (trigger_m : num) : Writer (MissionItem num) :=
  id <- nextId ;;
  ret {| AMslAlt := None;
         autoContinue := true;
         command := MAV_CMD_DO_SET_CAM_TRIGG_DIST;
         doJumpId := id;
         frame := MAV_FRAME_GLOBAL;
         params := [trigger_m; lit 0; lit 0; lit 0; lit 0; lit 0; lit 0];
         type := "SimpleItem" |}.

(** [for (const [lat, lon] of line) items.push(wp(lat, lon, relAlt_m))] *)
Fixpoint pushLine (relAlt_m : num) (line : list (num * num))
    (items : list (MissionItem num)) : Writer (list (MissionItem num)) :=
  match line with
  | [] => ret items
  | (lat, lon) :: rest =>
      w <- wp lat lon relAlt_m ;;
      pushLine relAlt_m rest (items ++ [w])
  end.

(** [for (const line of opts.gridLines) { ... }] *)
Fixpoint pushLines (relAlt_m : num) (lines : list (list (num * num)))
    (items : list (MissionItem num)) : Writer (list (MissionItem num)) :=
  match lines with
  | [] => ret items
  | line :: rest =>
      items' <- pushLine relAlt_m line items ;;
      pushLines relAlt_m rest items'
  end.

Definition orElse {A : Type} (o : option A) (d : A) : A :=   (* o ?? d *)
  match o with Some v => v | None => d end.

Definition makePlan (opts : MakePlanOptions num) : Writer (QgcPlan num) :=
  put 1%Z ;;
  t <- camTrigDist (trigger_m opts) ;;
  items <- pushLines (relAlt_m opts) (gridLines opts) ([] ++ [t]) ;;
  ret {| fileType := "Plan";
         version := 1;
         groundStation := "QGroundControl";
         geoFence := {| geoFence_version := 2; polygons := []; circles := [] |};
         rallyPoints := {| rallyPoints_version := 2; points := [] |};
         mission :=
           {| mission_version := 2;
              cruiseSpeed := groundspeed_mps opts;
              hoverSpeed := hover_mps opts;
              items := items;
              plannedHomePosition := (homeLat opts, homeLon opts, lit 0);
              firmwareType := Some (orElse (opts_firmwareType opts) 12%Z);
              vehicleType := Some (orElse (opts_vehicleType opts) 3%Z) |} |}.

(** One call of [makePlan] as the caller sees it: the plan returned, from
    whatever value earlier calls left in [idCounter]. *)
Definition makePlanFrom (idCounter : Z) (opts : MakePlanOptions num) : QgcPlan num :=
  fst (runState (makePlan opts) idCounter).

End Code.

(** *** GSD helpers *)

Section Gsd.
Context {num : Type} {N : Number num}.

(** A number used as a condition: truthy unless it is 0, -0 or NaN. *)
Definition truthyNumber (x : num) : bool := (x <>? lit 0) && (x =? x).

Definition gsdCmPerPx (heightAGL_m : num) (cam : Camera num) : num :=
  let fromSensor :=
    let gsd_m :=
      ((heightAGL_m * (sensorWidth_mm cam / lit 1000))
       / (focalLength_mm cam / lit 1000))
      / imageWidth_px cam in
    gsd_m * lit 100 in
  match pixelPitch_um cam with
  | Some pitch =>
      if truthyNumber pitch then
        let gsd_m :=
          (heightAGL_m * (pitch / lit 1000000)) / (focalLength_mm cam / lit 1000) in
        gsd_m * lit 100
      else fromSensor
  | None => fromSensor
  end.

End Gsd.

(** *** Grid builder *)

Section GridTypes.
Variable num : Type.

Record GridParams : Type := {
  startLat : num;
  startLon : num;
  headingDeg : num;
  lineCount : num;
  lineLength_m : num;
  spacing_m : num
}.

End GridTypes.

Section Grid.
Context {num : Type} {N : Number num} {T : Turf num}.

(** The two ends of line [i]: the start offset across track by
    [i * spacing_m], and the point [lineLength_m] ahead of it. *)
Definition lineEnds (params : GridParams num) (i : num) : Position num * Position num :=
  let ortho := (headingDeg params + lit 90) mod lit 360 in
  let offsetStart :=
    destination (startLon params, startLat params)
      ((i * spacing_m params) / lit 1000) ortho in
  let fwd := destination offsetStart (lineLength_m params / lit 1000) (headingDeg params) in
  (offsetStart, fwd).

(** The body of the loop: the line pushed for counter [i]. *)
Definition gridLine (params : GridParams num) (i : num) : list (num * num) :=
  let '(offsetStart, fwd) := lineEnds params i in
  let coords := if (i mod lit 2) =? lit 0 then [offsetStart; fwd] else [fwd; offsetStart] in
  map (fun p => (snd p, fst p)) coords.

(** [for (let i = 0; i < lineCount; i++)], one unit of fuel per evaluation
    of the loop test. *)
Fixpoint buildGridLoop (fuel : nat) (params : GridParams num) (i : num)
    (lines : list (list (num * num))) : option (list (list (num * num))) :=
  match fuel with
  | O => None
  | S fuel' =>
      if i <? lineCount params
      then buildGridLoop fuel' params (i + lit 1) (lines ++ [gridLine params i])
      else Some lines
  end.

Definition buildGrid (fuel : nat) (params : GridParams num)
    : option (list (list (num * num))) :=
  buildGridLoop fuel params (lit 0) [].

End Grid.

End Qgc.

(* ================================================================== *)
(** ** src/App.tsx: the planning helpers *)
(* ================================================================== *)

Module App.

Import Js Geo.
Local Open Scope js_scope.

Section Code.
Context {num : Type} {N : Number num} {T : Turf num}.

(** [type LatLon = [number, number] // [lat, lon]] *)
Definition LatLon : Type := (num * num)%type.

Definition Leg : Type := list LatLon.

(** [([lat, lon]) => [lon, lat]] and its inverse [([lon, lat]) => [lat, lon]]. *)
Definition swap (p : num * num) : num * num := (snd p, fst p).

(** Reading [a[0]] and [a[a.length - 1]] of an array known to be
    non-empty; the default is never returned on the paths below. *)
Definition origin : num * num := (lit 0, lit 0).
Definition first (a : list (num * num)) : num * num := hd origin a.
Definition final (a : list (num * num)) : num * num := last a origin.

(** *** Build lawnmower grid inside polygon *)

(** Lines 229-239: [Math.max(width_m, height_m)], the larger side of the
    bounding box in metres. *)
Definition gridExtent (poly : Polygon num) : num :=
  let '(minX, minY, maxX, maxY) := bbox poly in
  let centerLon := (minX + maxX) / lit 2 in
  let centerLat := (minY + maxY) / lit 2 in
  let width_m := turfDistance (minX, centerLat) (maxX, centerLat) * lit 1000 in
  let height_m := turfDistance (centerLon, minY) (centerLon, maxY) * lit 1000 in
  nmax width_m height_m.

(** Lines 240-242: the number of offsets on each side of the baseline. *)
Definition gridHalfSteps (poly : Polygon num) (spacing_m : num) : num :=
  let cover_m := gridExtent poly + spacing_m * lit 4 in
  nceil (cover_m / (lit 2 * spacing_m)).

(** Lines 229-251: the baseline through the bounding-box centre. *)
Definition gridBaseLine (poly : Polygon num) (headingDeg : num) : LineFeature num :=
  let '(minX, minY, maxX, maxY) := bbox poly in
  let centerLon := (minX + maxX) / lit 2 in
  let centerLat := (minY + maxY) / lit 2 in
  let diag_m := turfDistance (minX, minY) (maxX, maxY) * lit 1000 in
  let lineLen_m := nmax (lit 500) (diag_m * lit 2) in
  let pCenter := (centerLon, centerLat) in
  let p1 := destination pCenter (lineLen_m / lit 2000) headingDeg in
  let p2 := destination pCenter (lineLen_m / lit 2000) ((headingDeg + lit 180) mod lit 360) in
  lineString [p2; p1].

(** Lines 261-269: the pieces of one shifted line; the whole line when the
    split is empty or throws. *)
Definition splitPieces (shifted : LineFeature num) (poly : Polygon num)
    : list (LineFeature num) :=
  match lineSplit shifted poly with
  | Some features => if (0 <? length features)%nat then features else [shifted]
  | None => [shifted]
  end.

(** Lines 272-278: the body of [for (const seg of pieces)]. *)
Definition pushPiece (poly : Polygon num) (legs : list Leg) (seg : LineFeature num)
    : list Leg :=
  match geometry seg with
  | None => legs
  | Some coords =>
      if (length coords <? 2)%nat then legs
      else
        let mid := midpoint (first coords) (final coords) in
        if booleanPointInPolygon mid poly then
          let path := map swap coords in
          legs ++ [if (length legs mod 2 =? 0)%nat then path else rev path]   (* zig-zag *)
        else legs
  end.

(** [for (let i = -halfSteps; i <= halfSteps; i++)]: one unit of fuel per
    evaluation of the loop test; [None] when the fuel runs out before the
    test fails. *)
Fixpoint gridLoop (fuel : nat) (poly : Polygon num) (baseLine : LineFeature num)
    (spacing_m ortho halfSteps : num) (i : num) (legs : list Leg)
    : option (list Leg) :=
  match fuel with
  | O => None
  | S fuel' =>
      if i <=? halfSteps then
        let shifted := transformTranslate baseLine ((i * spacing_m) / lit 1000) ortho in
        let legs' := fold_left (pushPiece poly) (splitPieces shifted poly) legs in
        gridLoop fuel' poly baseLine spacing_m ortho halfSteps (i + lit 1) legs'
      else Some legs
  end.

Definition buildGridInsidePolygon (fuel : nat) (poly : Polygon num)
    (headingDeg spacing_m : num) : option (list Leg) :=
  let halfSteps := gridHalfSteps poly spacing_m in
  let ortho := (headingDeg + lit 90) mod lit 360 in
  let baseLine := gridBaseLine poly headingDeg in
  gridLoop fuel poly baseLine spacing_m ortho halfSteps (- halfSteps) [].

(** The pieces the grid builder keeps, in the order and direction the
    clipping produced them: the loop above without the zig-zag reversal.
    This is the reference against which "forward" and "reversed" are
    read. *)
Definition keepPiece (poly : Polygon num) (kept : list Leg) (seg : LineFeature num)
    : list Leg :=
  match geometry seg with
  | None => kept
  | Some coords =>
      if (length coords <? 2)%nat then kept
      else if booleanPointInPolygon (midpoint (first coords) (final coords)) poly
           then kept ++ [map swap coords]
           else kept
  end.

Fixpoint keptLoop (fuel : nat) (poly : Polygon num) (baseLine : LineFeature num)
    (spacing_m ortho halfSteps : num) (i : num) (kept : list Leg)
    : option (list Leg) :=
  match fuel with
  | O => None
  | S fuel' =>
      if i <=? halfSteps then
        let shifted := transformTranslate baseLine ((i * spacing_m) / lit 1000) ortho in
        let kept' := fold_left (keepPiece poly) (splitPieces shifted poly) kept in
        keptLoop fuel' poly baseLine spacing_m ortho halfSteps (i + lit 1) kept'
      else Some kept
  end.

Definition keptPaths (fuel : nat) (poly : Polygon num) (headingDeg spacing_m : num)
    : option (list Leg) :=
  let halfSteps := gridHalfSteps poly spacing_m in
  let ortho := (headingDeg + lit 90) mod lit 360 in
  keptLoop fuel poly (gridBaseLine poly headingDeg) spacing_m ortho halfSteps
    (- halfSteps) [].

(** Direction of a leg against the kept piece it was made from. *)
Definition forward (piece leg : Leg) : Prop := leg = piece.
Definition reversed (piece leg : Leg) : Prop := leg = rev piece.

(** The zig-zag by position: piece [k] as it is for even [k], reversed for
    odd [k], counting from [start]. *)
Fixpoint zigzagFrom (start : nat) (kept : list Leg) : list Leg :=
  match kept with
  | [] => []
  | p :: rest =>
      (if Nat.even start then p else rev p) :: zigzagFrom (S start) rest
  end.

Definition zigzag (kept : list Leg) : list Leg := zigzagFrom 0 kept.

(** *** Connect legs to a single continuous path *)

(** The body of the [for] loop of [connectLegs]. *)
Definition connectStep (out : list LatLon) (leg : Leg) : list LatLon :=
  if (length leg <? 2)%nat then out                    (* continue *)
  else if (length out =? 0)%nat then out ++ leg
  else
    let last := final out in
    let start := first leg in
    let out' :=
      if (fst last <>? fst start) || (snd last <>? snd start)
      then out ++ [start]                                (* connector *)
      else out in
    out' ++ tl leg.

Definition connectLegs (legs : list Leg) : list LatLon :=
  fold_left connectStep legs [].

(** *** Segment legs by battery cap *)

Record Segment : Type := {
  legs : list Leg;            (* legs included *)
  pathLatLon : list LatLon;   (* connected path (lat,lon) *)
  distance_m : num;
  time_s : num
}.

Definition legTimeAndDist (speed_mps : num) (leg : Leg) : num * num :=
  if (length leg <? 2)%nat then (lit 0, lit 0)
  else
    let ll := map swap leg in
    let d := turfLength (lineString ll) * lit 1000 in
    let t := if speed_mps >? lit 0 then d / speed_mps else lit 0 in
    (t, d).

(** The segment pushed when the running one is closed (lines 335-343 and
    355-363). *)
Definition closeSegment (current : list Leg) (timeAccum : num) : Segment :=
  let pathLatLon := connectLegs current in
  let ll := map swap pathLatLon in
  let segDist := turfLength (lineString ll) * lit 1000 in
  {| legs := current; pathLatLon := pathLatLon;
     distance_m := segDist; time_s := timeAccum |}.

(** The variables the [forEach] callback closes over. *)
Record SegState : Type := {
  segs : list Segment;
  current : list Leg;
  timeAccum : num;
  distAccum : num
}.

Definition segStep (speed_mps turnTime_s budget_s : num) (st : SegState) (leg : Leg)
    : SegState :=
  let '(t, d) := legTimeAndDist speed_mps leg in
  let extraTurn := turnTime_s in
  let st1 :=
    if (0 <? length (current st))%nat && (timeAccum st + t + extraTurn >? budget_s)
    then {| segs := segs st ++ [closeSegment (current st) (timeAccum st)];
            current := []; timeAccum := lit 0; distAccum := lit 0 |}
    else st in
  {| segs := segs st1;
     current := current st1 ++ [leg];
     timeAccum := timeAccum st1 + (t + extraTurn);
     distAccum := distAccum st1 + d |}.

Definition budgetOf (cap_min : num) : num :=
  nmax (lit 60) (cap_min * lit 60 - lit 60).   (* leave ~1 min reserve *)

Definition segmentByCap (legs : list Leg) (speed_mps turnTime_s cap_min : num)
    : list Segment :=
  let budget_s := budgetOf cap_min in
  let st := fold_left (segStep speed_mps turnTime_s budget_s) legs
              {| segs := []; current := []; timeAccum := lit 0; distAccum := lit 0 |} in
  if (0 <? length (current st))%nat
  then segs st ++ [closeSegment (current st) (timeAccum st)]
  else segs st.

(** *** The component's derived values ([useMemo] bodies) *)

Definition legsPrimary (fuel : nat) (aoi : option (Polygon num)) (heading across_m : num)
    : option (list Leg) :=
  match aoi with
  | None => Some []
  | Some poly =>
      match poly with
      | [] => Some []
      | ring :: _ =>
          if (length ring <? 4)%nat then Some []
          else buildGridInsidePolygon fuel poly heading across_m
      end
  end.

Definition legsCross (fuel : nat) (crosshatch : bool) (aoi : option (Polygon num))
    (heading across_m : num) : option (list Leg) :=
  match crosshatch, aoi with
  | true, Some poly =>
      buildGridInsidePolygon fuel poly ((heading + lit 90) mod lit 360) across_m
  | _, _ => Some []
  end.

Definition allLegs (crosshatch : bool) (legsPrimary legsCross : list Leg) : list Leg :=
  if crosshatch then legsPrimary ++ legsCross else legsPrimary.

Definition rawPathLatLon (allLegs : list Leg) : list LatLon := connectLegs allLegs.

(** Orient path so start is closest to Home. *)
Definition orientedPathLonLat (rawPathLatLon : list LatLon) (home : LatLon)
    : list (num * num) :=
  if (length rawPathLatLon <? 2)%nat then []
  else
    let pathLL := map swap rawPathLatLon in
    let homeLL := (snd home, fst home) in
    let dStart := turfDistance homeLL (first pathLL) in
    let dEnd := turfDistance homeLL (final pathLL) in
    if dStart <=? dEnd then pathLL else rev pathLL.

(** Entry/Return *)
Definition entryCoords (orientedPathLonLat : list (num * num)) (home : LatLon)
    : list (num * num) :=
  if (length orientedPathLonLat <? 2)%nat then []
  else [(snd home, fst home); first orientedPathLonLat].

Definition returnCoords (orientedPathLonLat : list (num * num)) (home : LatLon)
    : list (num * num) :=
  if (length orientedPathLonLat <? 2)%nat then []
  else [final orientedPathLonLat; (snd home, fst home)].

(** Distances & estimates (for whole plan) *)
Definition mainPathDistance_m (orientedPathLonLat : list (num * num)) : num :=
  if (length orientedPathLonLat <? 2)%nat then lit 0
  else turfLength (lineString orientedPathLonLat) * lit 1000.

Definition entryReturnDistance_m (entryCoords returnCoords : list (num * num)) : num :=
  let sum := lit 0 in
  let sum :=
    if (length entryCoords =? 2)%nat
    then sum + turfLength (lineString entryCoords) * lit 1000 else sum in
  let sum :=
    if (length returnCoords =? 2)%nat
    then sum + turfLength (lineString returnCoords) * lit 1000 else sum in
  sum.

Definition totalDistance_m (mainPathDistance_m entryReturnDistance_m : num) : num :=
  mainPathDistance_m + entryReturnDistance_m.

(** [allLegs.length] enters as a number. *)
Definition estTime_min (totalDistance_m groundspeed : num) (allLegs : list Leg)
    (turnTime : num) : num :=
  if (groundspeed <=? lit 0) || (totalDistance_m <=? lit 0) then lit 0
  else
    let pure_secs := totalDistance_m / groundspeed in
    let turns := nmax (lit 0) (lit (Z.of_nat (length allLegs)) - lit 1) in
    let overhead_secs := turns * turnTime in
    (pure_secs + overhead_secs) / lit 60.

Definition photoCount (mainPathDistance_m along_m : num) : num :=
  if (along_m <=? lit 0) || (mainPathDistance_m <=? lit 0) then lit 0
  else nceil (mainPathDistance_m / along_m).

(** Segments (by cap) *)
Definition segments (autoSegment : bool) (allLegs : list Leg)
    (rawPathLatLon : list LatLon) (mainPathDistance_m estTime_min : num)
    (groundspeed turnTime batteryCap : num) : list Segment :=
  if negb autoSegment
  then [ {| legs := allLegs;
            pathLatLon := rawPathLatLon;
            distance_m := mainPathDistance_m;
            time_s := estTime_min * lit 60 |} ]
  else segmentByCap allLegs groundspeed turnTime batteryCap.

(** The values the component derives from one leg list, a home point and
    the flight parameters, chained as the [useMemo] dependencies are. *)
Record Derived : Type := {
  d_rawPath : list LatLon;
  d_orientedPath : list (num * num);
  d_entry : list (num * num);
  d_return : list (num * num);
  d_mainPathDistance_m : num;
  d_entryReturnDistance_m : num;
  d_totalDistance_m : num;
  d_estTime_min : num;
  d_photoCount : num;
  d_segments : list Segment
}.

Definition derive (allLegs0 : list Leg) (home : LatLon) (along_m groundspeed turnTime
    batteryCap : num) (autoSegment : bool) : Derived :=
  let raw := rawPathLatLon allLegs0 in
  let oriented := orientedPathLonLat raw home in
  let entry := entryCoords oriented home in
  let ret := returnCoords oriented home in
  let main := mainPathDistance_m oriented in
  let er := entryReturnDistance_m entry ret in
  let total := totalDistance_m main er in
  let est := estTime_min total groundspeed allLegs0 turnTime in
  {| d_rawPath := raw;
     d_orientedPath := oriented;
     d_entry := entry;
     d_return := ret;
     d_mainPathDistance_m := main;
     d_entryReturnDistance_m := er;
     d_totalDistance_m := total;
     d_estTime_min := est;
     d_photoCount := photoCount main along_m;
     d_segments := segments autoSegment allLegs0 raw main est groundspeed turnTime batteryCap |}.

End Code.

End App.

(* ================================================================== *)
(** ** A planar geometry for concrete runs *)
(* ================================================================== *)

(** A small implementation of the geometry interface, used to run the
    planner on concrete inputs: a flat map on which one degree is one
    kilometre, bearings along the axes (0 north, 90 east, 180 south, 270
    west), polygons that are axis-aligned rectangles (a point is inside
    when it is inside the bounding box), and a [lineSplit] that cuts a
    two-point line along an axis where it enters and leaves the
    rectangle. *)

Module TestGeometry.

Import Js Geo.
Local Open Scope js_scope.

Section Flat.
Context {num : Type} {N : Number num}.

Definition nmin (a b : num) : num := if a <? b then a else b.
Definition nabs (a : num) : num := nmax a (- a).

Definition flat_bbox (poly : Polygon num) : num * num * num * num :=
  match concat poly with
  | [] => (lit 0, lit 0, lit 0, lit 0)
  | p :: rest =>
      fold_left
        (fun '(minX, minY, maxX, maxY) q =>
           (nmin minX (fst q), nmin minY (snd q), nmax maxX (fst q), nmax maxY (snd q)))
        rest (fst p, snd p, fst p, snd p)
  end.

Definition flat_distance (a b : Position num) : num :=
  nabs (fst a - fst b) + nabs (snd a - snd b).

Definition flat_destination (p : Position num) (km bearing : num) : Position num :=
  if bearing =? lit 0 then (fst p, snd p + km)
  else if bearing =? lit 90 then (fst p + km, snd p)
  else if bearing =? lit 180 then (fst p, snd p - km)
  else if bearing =? lit 270 then (fst p - km, snd p)
  else p.

Definition flat_translate (line : LineFeature num) (km bearing : num) : LineFeature num :=
  {| geometry :=
       option_map (map (fun p => flat_destination p km bearing)) (geometry line) |}.

Definition flat_inside (p : Position num) (poly : Polygon num) : bool :=
  let '(minX, minY, maxX, maxY) := flat_bbox poly in
  (minX <=? fst p) && (fst p <=? maxX) && (minY <=? snd p) && (snd p <=? maxY).

Definition between (lo x hi : num) : bool := (lo <=? x) && (x <=? hi).

(** The three pieces of the line [a -> b] cut at [p] and [q]. *)
Definition cutAt (a p q b : Position num) : list (LineFeature num) :=
  [lineString [a; p]; lineString [p; q]; lineString [q; b]].

Definition flat_lineSplit (line : LineFeature num) (poly : Polygon num)
    : option (list (LineFeature num)) :=
  let '(minX, minY, maxX, maxY) := flat_bbox poly in
  match geometry line with
  | Some [a; b] =>
      if (fst a =? fst b) && between minX (fst a) maxX
         && (nmin (snd a) (snd b) <? minY) && (maxY <? nmax (snd a) (snd b))
      then
        let south := (fst a, minY) in
        let north := (fst a, maxY) in
        Some (if snd a <? snd b then cutAt a south north b else cutAt a north south b)
      else if (snd a =? snd b) && between minY (snd a) maxY
              && (nmin (fst a) (fst b) <? minX) && (maxX <? nmax (fst a) (fst b))
      then
        let west := (minX, snd a) in
        let east := (maxX, snd a) in
        Some (if fst a <? fst b then cutAt a west east b else cutAt a east west b)
      else Some []
  | _ => Some []
  end.

Definition flat_midpoint (a b : Position num) : Position num :=
  ((fst a + fst b) / lit 2, (snd a + snd b) / lit 2).

Fixpoint flat_pathLength (coords : list (Position num)) : num :=
  match coords with
  | a :: (b :: _) as rest => flat_distance a b + flat_pathLength rest
  | _ => lit 0
  end.

Definition flat : Turf num := {|
  bbox := flat_bbox;
  turfDistance := flat_distance;
  destination := flat_destination;
  transformTranslate := flat_translate;
  lineSplit := flat_lineSplit;
  booleanPointInPolygon := flat_inside;
  midpoint := flat_midpoint;
  turfLength := fun line =>
    match geometry line with Some coords => flat_pathLength coords | None => lit 0 end
|}.

End Flat.

(** A 500 m square AOI with its south-west corner at the origin, as a
    closed ring of [[lon, lat]] pairs. *)
Definition square : Polygon float :=
  [[ (0, 0); (0.5, 0); (0.5, 0.5); (0, 0.5); (0, 0) ]]%float.

End TestGeometry.

(* ================================================================== *)
(** * Properties *)
(* ================================================================== *)

(** ** Exact arithmetic on the rationals *)

Module ExactFacts.

Import Js Exact.

Lemma Qplus_assoc_eq (a b c : Q) : Qplus a (Qplus b c) = Qplus (Qplus a b) c.
Proof.
  destruct a as [an ad], b as [bn bd], c as [cn cd].
  unfold Qplus; simpl.
  rewrite !Pos2Z.inj_mul, Pos.mul_assoc.
  f_equal. ring.
Qed.

Lemma ltb_of_leb_false (a b : Q) : Qle_bool a b = false -> ltb b a = true.
Proof. unfold ltb. intros ->. reflexivity. Qed.

Lemma leb_of_ltb (a b : Q) : ltb a b = true -> Qle_bool a b = true.
Proof.
  unfold ltb. intros H. apply negb_true_iff in H.
  apply Qle_bool_iff, Qlt_le_weak, Qnot_le_lt.
  intros Hle. apply Qle_bool_iff in Hle. congruence.
Qed.

Lemma leb_false_of_ltb (a b : Q) : ltb a b = true -> Qle_bool b a = false.
Proof. unfold ltb. intros H. now apply negb_true_iff in H. Qed.

#[export] Instance TotalOrder_Q : TotalOrder Q.
Proof.
  constructor.
  - exact ltb_of_leb_false.
  - exact leb_of_ltb.
  - exact leb_false_of_ltb.
Qed.

#[export] Instance ExactSum_Q : ExactSum Q.
Proof. constructor. exact Qplus_assoc_eq. Qed.

End ExactFacts.

(** ** Comparisons *)

Module OrderFacts.

Import Js Float64.
Local Open Scope js_scope.

Lemma TotalOrder_comparable {num : Type} {N : Number num} {O : TotalOrder num}
    (a b : num) : comparable a b.
Proof.
  split.
  - destruct (a <=? b) eqn:Hle.
    + destruct (b <? a) eqn:Hlt; [| reflexivity].
      apply nltb_true_leb_false in Hlt. congruence.
    + apply nleb_false_ltb in Hle. now rewrite Hle.
  - apply nltb_true_leb.
Qed.

(** Comparison of binary64 numbers, through their specification. *)
Lemma SFcompare_antisym (x y : spec_float) :
  SFcompare y x = option_map CompOpp (SFcompare x y).
Proof.
  destruct x as [sx | sx | | sx mx ex], y as [sy | sy | | sy my ey];
    try reflexivity;
    try (destruct sx; reflexivity);
    try (destruct sy; reflexivity);
    try (destruct sx, sy; reflexivity).
  cbn. destruct sx, sy; try reflexivity; cbn;
    rewrite (Z.compare_antisym ex ey); destruct (ex ?= ey)%Z; cbn; try reflexivity;
    rewrite (Pos.compare_cont_antisym mx my Eq); reflexivity.
Qed.

Lemma not_nan_spec (a : float) :
  PrimFloat.is_nan a = false -> Prim2SF a <> S754_nan.
Proof.
  unfold PrimFloat.is_nan. rewrite eqb_spec. intros H Hn.
  rewrite Hn in H. discriminate.
Qed.

Lemma SFcompare_defined (x y : spec_float) :
  x <> S754_nan -> y <> S754_nan -> exists c, SFcompare x y = Some c.
Proof.
  intros Hx Hy. destruct x, y; try congruence; cbn; eauto.
Qed.

(** Two binary64 numbers other than NaN compare. *)
Lemma float_comparable (a b : float) :
  PrimFloat.is_nan a = false -> PrimFloat.is_nan b = false -> comparable a b.
Proof.
  intros Ha Hb. split.
  - change (PrimFloat.leb a b = negb (PrimFloat.ltb b a)).
    rewrite leb_spec, ltb_spec. unfold SFleb, SFltb.
    rewrite (SFcompare_antisym (Prim2SF a) (Prim2SF b)).
    destruct (@SFcompare_defined (Prim2SF a) (Prim2SF b)) as [c ->];
      [now apply not_nan_spec | now apply not_nan_spec |].
    destruct c; reflexivity.
  - change (PrimFloat.ltb b a = true -> PrimFloat.leb b a = true).
    rewrite leb_spec, ltb_spec. unfold SFleb, SFltb.
    destruct (SFcompare (Prim2SF b) (Prim2SF a)) as [[| |] |]; congruence.
Qed.

(** Arithmetic of a positive binary64 number with zero. *)
Lemma Prim2SF_inj (x y : float) : Prim2SF x = Prim2SF y -> x = y.
Proof.
  intros H. rewrite <- (SF2Prim_Prim2SF x), <- (SF2Prim_Prim2SF y).
  now rewrite H.
Qed.

Lemma positive_spec (c : float) :
  PrimFloat.ltb 0 c = true ->
  Prim2SF c = S754_infinity false \/ exists m e, Prim2SF c = S754_finite false m e.
Proof.
  rewrite ltb_spec. unfold SFltb. change (Prim2SF 0) with (S754_zero false).
  destruct (Prim2SF c) as [s | s | | s m e]; cbn; try discriminate.
  - destruct s; [discriminate | now left].
  - destruct s; [discriminate | right; eauto].
Qed.

Lemma add_zero_positive (c : float) :
  PrimFloat.ltb 0 c = true -> PrimFloat.add c 0 = c.
Proof.
  intros Hc. apply Prim2SF_inj. rewrite add_spec.
  change (Prim2SF 0) with (S754_zero false).
  destruct (positive_spec Hc) as [-> | (m & e & ->)]; reflexivity.
Qed.

Lemma div_zero_positive (c : float) :
  PrimFloat.ltb 0 c = true -> PrimFloat.div c 0 = infinity.
Proof.
  intros Hc. apply Prim2SF_inj. rewrite div_spec.
  change (Prim2SF 0) with (S754_zero false).
  destruct (positive_spec Hc) as [-> | (m & e & ->)]; reflexivity.
Qed.

End OrderFacts.

(** ** Signs *)

(** Laws of sign that hold of binary64 as they do of the rationals:
    rounding never changes a sign, so what is computed from numbers that
    are not negative by adding, multiplying, dividing by a positive number,
    [Math.max(0, _)] and [Math.ceil] is not negative either.  "Not
    negative" is the test [x < 0] being false, which NaN passes too. *)

Module SignFacts.
Import Js.
Local Open Scope js_scope.

(** [x < 0] is false: the number is zero, positive, or NaN. *)
Definition notNegative {num : Type} {N : Number num} (x : num) : Prop :=
  (x <? lit 0) = false.

(** [x <= 0] is false: the number is positive, or NaN. *)
Definition aboveZero {num : Type} {N : Number num} (x : num) : Prop :=
  (x <=? lit 0) = false.

Class SignLaws (num : Type) {N : Number num} : Prop := {
  zero_notNegative : notNegative (lit 0);
  sixty_aboveZero : aboveZero (lit 60);
  above_notNegative : forall a : num, aboveZero a -> notNegative a;
  add_notNegative : forall a b : num, notNegative a -> notNegative b -> notNegative (a + b);
  mul_notNegative : forall a b : num, notNegative a -> notNegative b -> notNegative (a * b);
  div_notNegative : forall a b : num, notNegative a -> aboveZero b -> notNegative (a / b);
  max_notNegative : forall a : num, notNegative (nmax (lit 0) a);
  ceil_notNegative : forall a : num, notNegative a -> notNegative (nceil a)
}.
Arguments SignLaws num {N}.

Section Binary64.
Import Float64.

(** The sign is not minus, or the value is a zero or NaN. *)
Definition sf_notNegative (x : spec_float) : Prop :=
  match x with
  | S754_finite true _ _ | S754_infinity true => False
  | _ => True
  end.

Definition sf_aboveZero (x : spec_float) : Prop :=
  match x with
  | S754_finite false _ _ | S754_infinity false | S754_nan => True
  | _ => False
  end.

Lemma Prim2SF_zero : Prim2SF (of_Z 0) = S754_zero false.
Proof. vm_compute. reflexivity. Qed.

Lemma notNegative_spec (x : float) : notNegative x <-> sf_notNegative (Prim2SF x).
Proof.
  unfold notNegative. change (x <? lit 0) with (PrimFloat.ltb x (of_Z 0)).
  rewrite ltb_spec, Prim2SF_zero.
  destruct (Prim2SF x) as [[] | [] | | [] m e]; cbn; intuition discriminate.
Qed.

Lemma aboveZero_spec (x : float) : aboveZero x <-> sf_aboveZero (Prim2SF x).
Proof.
  unfold aboveZero. change (x <=? lit 0) with (PrimFloat.leb x (of_Z 0)).
  rewrite leb_spec, Prim2SF_zero.
  destruct (Prim2SF x) as [[] | [] | | [] m e]; cbn; intuition discriminate.
Qed.

Lemma round_aux_notNegative (m e : Z) (l : location) :
  sf_notNegative (binary_round_aux prec emax false m e l).
Proof.
  unfold binary_round_aux.
  destruct (shr_fexp prec emax m e l) as [mrs' e'].
  destruct (shr_fexp prec emax _ e' loc_Exact) as [mrs'' e''].
  destruct (shr_m mrs''); [exact I | | exact I].
  destruct (Z.leb e'' (emax - prec)); exact I.
Qed.

Lemma round_notNegative (m : positive) (e : Z) :
  sf_notNegative (binary_round prec emax false m e).
Proof.
  unfold binary_round. destruct (shl_align _ _ _) as [mz ez].
  apply round_aux_notNegative.
Qed.

Lemma SFmul_notNegative (x y : spec_float) :
  sf_notNegative x -> sf_notNegative y -> sf_notNegative (SF64mul x y).
Proof.
  unfold SF64mul.
  destruct x as [[] | [] | | [] mx ex], y as [[] | [] | | [] my ey];
    cbn; intros Hx Hy; try exact I; try contradiction.
  apply round_aux_notNegative.
Qed.

Lemma SFdiv_notNegative (x y : spec_float) :
  sf_notNegative x -> sf_aboveZero y -> sf_notNegative (SF64div x y).
Proof.
  unfold SF64div.
  destruct x as [[] | [] | | [] mx ex], y as [[] | [] | | [] my ey];
    cbn [SFdiv sf_notNegative sf_aboveZero xorb]; intros Hx Hy;
    try exact I; try contradiction.
  destruct (SFdiv_core_binary prec emax (Zpos mx) ex (Zpos my) ey) as [[mz ez] lz].
  apply round_aux_notNegative.
Qed.

Lemma SFadd_notNegative (x y : spec_float) :
  sf_notNegative x -> sf_notNegative y -> sf_notNegative (SF64add x y).
Proof.
  unfold SF64add.
  destruct x as [[] | [] | | [] mx ex], y as [[] | [] | | [] my ey];
    cbn [SFadd sf_notNegative]; intros Hx Hy; try exact I; try contradiction.
  cbn [cond_Zopp Z.add]. cbn [binary_normalize]. apply round_notNegative.
Qed.

Lemma of_Z_notNegative (z : Z) : (0 <= z)%Z -> sf_notNegative (Prim2SF (of_Z z)).
Proof.
  intros Hz. unfold of_Z. destruct (Z.ltb_spec z 0) as [Hlt | _]; [lia |].
  rewrite of_uint63_spec.
  pose proof (Uint63.to_Z_bounded (Uint63.of_Z z)) as Hb.
  destruct (Uint63.to_Z (Uint63.of_Z z)) as [| p | p]; cbn [binary_normalize].
  - exact I.
  - apply round_notNegative.
  - lia.
Qed.

#[export] Instance SignLaws_float : SignLaws float.
Proof.
  constructor.
  - reflexivity.
  - reflexivity.
  - intros a. rewrite aboveZero_spec, notNegative_spec.
    now destruct (Prim2SF a) as [[] | [] | | [] m e].
  - intros a b. rewrite !notNegative_spec.
    change (a + b) with (PrimFloat.add a b). rewrite add_spec.
    apply SFadd_notNegative.
  - intros a b. rewrite !notNegative_spec.
    change (a * b) with (PrimFloat.mul a b). rewrite mul_spec.
    apply SFmul_notNegative.
  - intros a b. rewrite !notNegative_spec, aboveZero_spec.
    change (a / b) with (PrimFloat.div a b). rewrite div_spec.
    apply SFdiv_notNegative.
  - intros a. change (nmax (lit 0) a) with (max (of_Z 0) a). unfold max.
    destruct (is_nan (of_Z 0) || is_nan a); [reflexivity |].
    destruct (PrimFloat.ltb (of_Z 0) a) eqn:Hlt.
    + apply notNegative_spec. rewrite ltb_spec, Prim2SF_zero in Hlt.
      now destruct (Prim2SF a) as [[] | [] | | [] m e].
    + destruct (PrimFloat.ltb a (of_Z 0)); [reflexivity |].
      change (is_zero (of_Z 0) && get_sign (of_Z 0)) with false. reflexivity.
  - intros a. rewrite !notNegative_spec.
    change (nceil a) with (ceil a). unfold ceil.
    destruct (Prim2SF a) as [[] | [] | | [] m e] eqn:Ha; cbn [sf_notNegative];
      intros Hnn; try contradiction; try (rewrite Ha; exact I).
    destruct (0 <=? e)%Z; [rewrite Ha; exact I |].
    apply of_Z_notNegative.
    assert (Hq : (0 <= Z.shiftr (Zpos m) (- e))%Z) by (apply Z.shiftr_nonneg; lia).
    destruct (_ =? _)%Z; lia.
Qed.

End Binary64.

Section Rationals.
Import Exact.

Lemma notNegative_Q (a : Q) : notNegative a <-> (0 <= a)%Q.
Proof.
  unfold notNegative. change (a <? lit 0) with (negb (Qle_bool 0 a)).
  rewrite negb_false_iff. apply Qle_bool_iff.
Qed.

Lemma aboveZero_Q (a : Q) : aboveZero a <-> (0 < a)%Q.
Proof.
  unfold aboveZero. change (a <=? lit 0) with (Qle_bool a 0). split.
  - intros H. apply Qnot_le_lt. intros Hle. apply Qle_bool_iff in Hle. congruence.
  - intros H. destruct (Qle_bool a 0) eqn:E; [| reflexivity].
    apply Qle_bool_iff in E. lra.
Qed.

#[export] Instance SignLaws_Q : SignLaws Q.
Proof.
  constructor.
  - reflexivity.
  - reflexivity.
  - intros a. rewrite aboveZero_Q, notNegative_Q. lra.
  - intros a b. rewrite !notNegative_Q. change (a + b) with (a + b)%Q. lra.
  - intros a b. rewrite !notNegative_Q. change (a * b) with (a * b)%Q.
    apply Qmult_le_0_compat.
  - intros a b. rewrite !notNegative_Q, aboveZero_Q. change (a / b) with (a / b)%Q.
    intros Ha Hb. apply Qle_shift_div_l; [exact Hb | lra].
  - intros a. rewrite notNegative_Q. change (nmax (lit 0) a) with (max 0 a).
    unfold max. destruct (Qle_bool 0 a) eqn:E; [now apply Qle_bool_iff | lra].
  - intros a. rewrite !notNegative_Q. change (nceil a) with (inject_Z (Qceiling a)).
    intros Ha. pose proof (Qle_ceiling a). lra.
Qed.

End Rationals.

End SignFacts.

(** ** Counting *)

(** The two counting loops of the planner run on [number]s.  What they
    need of the numbers is stated once; it holds of the rationals for
    every count and of binary64 for every count up to a bound checked by
    evaluation. *)

Module CountFacts.
Import Js.
Local Open Scope js_scope.

(** The whole numbers from [lo], [n] of them. *)
Fixpoint zrange (lo : Z) (n : nat) : list Z :=
  match n with
  | O => []
  | S n' => lo :: zrange (lo + 1) n'
  end.

Lemma zrange_In (n : nat) (lo z : Z) :
  (lo <= z < lo + Z.of_nat n)%Z -> In z (zrange lo n).
Proof.
  revert lo. induction n as [| n IH]; intros lo Hz; [lia |].
  cbn [zrange]. destruct (Z.eq_dec lo z) as [-> | Hne]; [now left | right].
  apply IH. lia.
Qed.

Section Laws.
Context {num : Type} {N : Number num}.

(** The counter of [for (let i = -h; i <= h; i++)] with [h] the whole
    number [H] behaves as the whole numbers do: the first test and the
    first increment from [-h], then each increment and each test up to
    [H + 1]. *)
Definition countsTo (H : Z) : Prop :=
  (- lit H <=? lit H) = (0 <=? H)%Z
  /\ ((0 <= H)%Z -> - lit H + lit 1 = lit (1 - H))
  /\ (forall z, (- H < z <= H + 1)%Z ->
        lit z + lit 1 = lit (z + 1) /\ (lit z <=? lit H) = (z <=? H)%Z).

(** The counter of [for (let i = 0; i < n; i++)] and the parity test
    [i % 2 === 0] behave as on the whole numbers up to [n]. *)
Definition countsBelow (n : Z) : Prop :=
  forall k, (0 <= k <= n)%Z ->
    lit k + lit 1 = lit (k + 1)
    /\ (lit k <? lit n) = (k <? n)%Z
    /\ ((lit k mod lit 2) =? lit 0) = Z.even k.

End Laws.

Section Rationals.
Import Exact.

Lemma lit_succ_Q (z : Z) : (lit z + lit 1 : Q) = lit (z + 1).
Proof.
  change (Qplus (inject_Z z) (inject_Z 1) = inject_Z (z + 1)).
  unfold Qplus, inject_Z. cbn [Qnum Qden Pos.mul]. f_equal. lia.
Qed.

Lemma lit_leb_Q (a b : Z) : (lit a <=? lit b : bool) = (a <=? b)%Z.
Proof.
  change (Qle_bool (inject_Z a) (inject_Z b) = (a <=? b)%Z).
  destruct (Z.leb_spec a b) as [Hle | Hgt].
  - apply Qle_bool_iff. now rewrite <- Zle_Qle.
  - destruct (Qle_bool _ _) eqn:E; [| reflexivity].
    apply Qle_bool_iff in E. rewrite <- Zle_Qle in E. lia.
Qed.

Lemma lit_ltb_Q (a b : Z) : (lit a <? lit b : bool) = (a <? b)%Z.
Proof.
  change (negb (lit b <=? lit a) = (a <? b)%Z). rewrite lit_leb_Q.
  destruct (Z.leb_spec b a), (Z.ltb_spec a b); try reflexivity; lia.
Qed.

Lemma lit_even_Q (k : Z) : (0 <= k)%Z -> ((lit k mod lit 2) =? lit 0 : bool) = Z.even k.
Proof.
  intros Hk.
  change (Qeq_bool (rem (inject_Z k) (inject_Z 2)) (inject_Z 0) = Z.even k).
  assert (Hrem : rem (inject_Z k) (inject_Z 2) == inject_Z (Z.rem k 2)).
  { unfold rem, trunc.
    assert (Hq : Z.quot (Qnum (inject_Z k / inject_Z 2))
                        (Zpos (Qden (inject_Z k / inject_Z 2)))
                 = Z.quot k 2).
    { cbn. now rewrite Z.mul_1_r. }
    rewrite Hq, (Z.rem_eq k 2) by lia.
    unfold Qminus, Z.sub. rewrite inject_Z_plus, inject_Z_opp, inject_Z_mult. reflexivity. }
  rewrite Z.rem_mod_nonneg in Hrem by lia.
  rewrite Zeven_mod.
  destruct (Z.eqb_spec (k mod 2) 0) as [Hz | Hnz].
  - apply Qeq_bool_iff. rewrite Hrem, Hz. reflexivity.
  - destruct (Qeq_bool _ _) eqn:Heq; [| reflexivity].
    apply Qeq_bool_iff in Heq. rewrite Hrem in Heq.
    unfold Qeq in Heq. cbn [inject_Z Qnum Qden] in Heq. lia.
Qed.

(** The rationals count to any whole number. *)
Lemma countsTo_exact (H : Z) : countsTo (num := Q) H.
Proof.
  split; [| split].
  - change (- lit H) with (lit (- H) : Q). rewrite lit_leb_Q.
    destruct (Z.leb_spec (- H) H), (Z.leb_spec 0 H); try reflexivity; lia.
  - intros _. change (- lit H) with (lit (- H) : Q). rewrite lit_succ_Q.
    f_equal. lia.
  - intros z _. split; [apply lit_succ_Q | apply lit_leb_Q].
Qed.

Lemma countsBelow_exact (n : Z) : countsBelow (num := Q) n.
Proof.
  intros k [Hk _]. split; [apply lit_succ_Q |].
  split; [apply lit_ltb_Q | now apply lit_even_Q].
Qed.

End Rationals.

Section Binary64.
Import Float64.

Lemma SFltb_trans (x y z : spec_float) :
  SFltb x y = true -> SFltb y z = true -> SFltb x z = true.
Proof.
  unfold SFltb.
  destruct x as [sx | sx | | sx mx ex], y as [sy | sy | | sy my ey],
    z as [sz | sz | | sz mz ez]; cbn;
    try discriminate; try reflexivity;
    try (destruct sx; discriminate || reflexivity);
    try (destruct sy; discriminate || reflexivity);
    try (destruct sz; discriminate || reflexivity);
    try (destruct sx, sy; discriminate || reflexivity);
    try (destruct sx, sz; discriminate || reflexivity);
    try (destruct sy, sz; discriminate || reflexivity);
    try (destruct sx, sy, sz; discriminate || reflexivity).
  destruct sx, sy, sz; try discriminate; try reflexivity;
    rewrite ?Pos.compare_cont_spec; cbn [Pos.switch_Eq];
    destruct (Z.compare_spec ex ey), (Z.compare_spec ey ez), (Z.compare_spec ex ez);
    try discriminate; try reflexivity; try lia;
    destruct (Pos.compare_spec mx my), (Pos.compare_spec my mz), (Pos.compare_spec mx mz);
    cbn; try discriminate; try reflexivity; try lia.
Qed.

Lemma ltb_trans (a b c : float) :
  PrimFloat.ltb a b = true -> PrimFloat.ltb b c = true -> PrimFloat.ltb a c = true.
Proof. rewrite !ltb_spec. apply SFltb_trans. Qed.

Lemma ltb_leb (a b : float) : PrimFloat.ltb a b = true -> PrimFloat.leb a b = true.
Proof.
  rewrite ltb_spec, leb_spec. unfold SFltb, SFleb.
  now destruct (SFcompare _ _) as [[| |] |].
Qed.

Lemma ltb_leb_false (a b : float) : PrimFloat.ltb a b = true -> PrimFloat.leb b a = false.
Proof.
  rewrite ltb_spec, leb_spec. unfold SFltb, SFleb.
  rewrite (OrderFacts.SFcompare_antisym (Prim2SF a) (Prim2SF b)).
  now destruct (SFcompare _ _) as [[| |] |].
Qed.

(** What is checked of each whole number [z] by evaluation: the increment
    from it, the comparisons with its successor and with itself, its
    parity, and the first test and increment of a loop that starts at
    [-z]. *)
Definition wholeB (z : Z) : bool :=
  PrimFloat.Leibniz.eqb (PrimFloat.add (of_Z z) (of_Z 1)) (of_Z (z + 1))
  && PrimFloat.ltb (of_Z z) (of_Z (z + 1))
  && PrimFloat.leb (of_Z z) (of_Z z)
  && negb (PrimFloat.ltb (of_Z z) (of_Z z))
  && Bool.eqb (PrimFloat.eqb (rem (of_Z z) (of_Z 2)) (of_Z 0)) (Z.even z)
  && Bool.eqb (PrimFloat.leb (PrimFloat.opp (of_Z z)) (of_Z z)) (0 <=? z)%Z
  && ((z <? 0)%Z
      || PrimFloat.Leibniz.eqb (PrimFloat.add (PrimFloat.opp (of_Z z)) (of_Z 1))
                               (of_Z (1 - z))).

(** The bound up to which binary64 counting is checked. *)
Definition wholeBound : Z := 20000.

Lemma whole_checked :
  forallb wholeB (zrange (- wholeBound) (Z.to_nat (2 * wholeBound + 2))) = true.
Proof. vm_compute. reflexivity. Qed.

Lemma whole_at (z : Z) : (- wholeBound <= z <= wholeBound + 1)%Z -> wholeB z = true.
Proof.
  intros Hz. pose proof whole_checked as Hall. rewrite forallb_forall in Hall.
  apply Hall, zrange_In. unfold wholeBound in *. lia.
Qed.

Lemma whole_lt (n : nat) (a : Z) :
  (- wholeBound <= a)%Z -> (a + 1 + Z.of_nat n <= wholeBound + 2)%Z ->
  PrimFloat.ltb (of_Z a) (of_Z (a + 1 + Z.of_nat n)) = true.
Proof.
  induction n as [| n IH]; intros Hlo Hhi.
  - replace (a + 1 + Z.of_nat 0)%Z with (a + 1)%Z by lia.
    pose proof (@whole_at a ltac:(lia)) as Hw. unfold wholeB in Hw.
    rewrite !andb_true_iff in Hw. tauto.
  - apply ltb_trans with (b := of_Z (a + 1 + Z.of_nat n)); [apply IH; lia |].
    replace (a + 1 + Z.of_nat (S n))%Z with ((a + 1 + Z.of_nat n) + 1)%Z by lia.
    pose proof (@whole_at (a + 1 + Z.of_nat n)%Z ltac:(lia)) as Hw. unfold wholeB in Hw.
    rewrite !andb_true_iff in Hw. tauto.
Qed.

Lemma whole_ltb (a b : Z) :
  (- wholeBound <= a)%Z -> (a < b <= wholeBound + 2)%Z ->
  PrimFloat.ltb (of_Z a) (of_Z b) = true.
Proof.
  intros Hlo Hab. replace b with (a + 1 + Z.of_nat (Z.to_nat (b - a - 1)))%Z by lia.
  apply whole_lt; lia.
Qed.

(** Binary64 counts to every whole number up to the bound. *)
Lemma countsTo_binary64 (H : Z) :
  (- wholeBound <= H <= wholeBound)%Z -> countsTo (num := float) H.
Proof.
  intros HH. pose proof (@whole_at H ltac:(lia)) as Hw. unfold wholeB in Hw.
  rewrite !andb_true_iff in Hw. destruct Hw as [[_ Hfirst] Hstart].
  split; [| split].
  - now apply Bool.eqb_prop in Hfirst.
  - intros Hpos. destruct (Z.ltb_spec H 0) as [Hneg | _]; [lia |].
    cbn [orb] in Hstart. now apply FloatAxioms.Leibniz.eqb_spec in Hstart.
  - intros z Hz. pose proof (@whole_at z ltac:(lia)) as Hz'. unfold wholeB in Hz'.
    rewrite !andb_true_iff in Hz'.
    destruct Hz' as [[[[[[Hsucc _] Hrefl] _] _] _] _].
    split; [now apply FloatAxioms.Leibniz.eqb_spec |].
    change (PrimFloat.leb (of_Z z) (of_Z H) = (z <=? H)%Z).
    destruct (Z.leb_spec z H) as [Hle | Hgt].
    + destruct (Z.eq_dec z H) as [-> | Hne]; [exact Hrefl |].
      apply ltb_leb, whole_ltb; lia.
    + apply ltb_leb_false, whole_ltb; lia.
Qed.

Lemma countsBelow_binary64 (n : Z) :
  (0 <= n <= wholeBound)%Z -> countsBelow (num := float) n.
Proof.
  intros Hn k Hk. pose proof (@whole_at k ltac:(lia)) as Hw. unfold wholeB in Hw.
  rewrite !andb_true_iff in Hw.
  destruct Hw as [[[[[[Hsucc _] _] Hirr] Hpar] _] _].
  split; [now apply FloatAxioms.Leibniz.eqb_spec |]. split.
  - change (PrimFloat.ltb (of_Z k) (of_Z n) = (k <? n)%Z).
    destruct (Z.ltb_spec k n) as [Hlt | Hge].
    + apply whole_ltb; lia.
    + replace k with n in * by lia. now apply negb_true_iff.
  - now apply Bool.eqb_prop.
Qed.

End Binary64.

End CountFacts.

(** ** Spacing calculator *)

Module SpacingSpec.

Import Js Qgc.
Local Open Scope js_scope.

Section Spacing.
Context {num : Type} {N : Number num}.

(** C8.  For every height, camera, overlap and sidelap, the spacing
    calculator returns the along-track spacing
    [(height * sensorHeight / focalLength) * (1 - overlap)] and the
    across-track spacing [(height * sensorWidth / focalLength) * (1 - sidelap)],
    where the sensor and focal dimensions, given in millimetres, enter in
    metres (each divided by 1000).  The footprint it reports is the pair of
    ground dimensions. *)
Theorem spacingFromOverlap_formula (heightAGL_m : num) (cam : Camera num)
    (overlapFrac sidelapFrac : num) :
  let s := spacingFromOverlap heightAGL_m cam overlapFrac sidelapFrac in
  let sensorHeight_m := sensorHeight_mm cam / lit 1000 in
  let sensorWidth_m := sensorWidth_mm cam / lit 1000 in
  let focalLength_m := focalLength_mm cam / lit 1000 in
  along_m s = (heightAGL_m * sensorHeight_m / focalLength_m) * (lit 1 - overlapFrac)
  /\ across_m s = (heightAGL_m * sensorWidth_m / focalLength_m) * (lit 1 - sidelapFrac)
  /\ groundHeight_m (footprint s) = heightAGL_m * sensorHeight_m / focalLength_m
  /\ groundWidth_m (footprint s) = heightAGL_m * sensorWidth_m / focalLength_m.
Proof.
  cbn. repeat split.
Qed.

End Spacing.

(** In exact arithmetic the conversion to metres cancels: with a focal
    length other than zero, the ground dimension is
    [height * sensorDim / focalLength] whatever the common unit of the two
    camera dimensions. *)
Lemma footprint_units_cancel (heightAGL_m : Q) (cam : Camera Q) :
  ~ focalLength_mm cam == 0 ->
  groundHeight_m (footprintMeters (N := Exact.Number_Q) heightAGL_m cam)
    == heightAGL_m * sensorHeight_mm cam / focalLength_mm cam
  /\ groundWidth_m (footprintMeters (N := Exact.Number_Q) heightAGL_m cam)
    == heightAGL_m * sensorWidth_mm cam / focalLength_mm cam.
Proof.
  intros Hf. cbn. split; field; exact Hf.
Qed.

End SpacingSpec.

(** ** Leg stitching *)

Module ConnectSpec.

Import Js Geo App.
Local Open Scope js_scope.

Section Connect.
Context {num : Type} {N : Number num}.

Lemma connectStep_short (out : list (@LatLon num)) (leg : Leg) :
  (length leg < 2)%nat -> connectStep out leg = out.
Proof.
  intros H. unfold connectStep.
  destruct (Nat.ltb_spec (length leg) 2) as [_ | Hge]; [reflexivity | lia].
Qed.

Lemma connect_fold_filter (legs : list (@Leg num)) (out : list LatLon) :
  fold_left connectStep legs out
  = fold_left connectStep (filter (fun leg => (2 <=? length leg)%nat) legs) out.
Proof.
  revert out. induction legs as [| leg legs IH]; intros out; [reflexivity |].
  cbn [filter fold_left].
  destruct (Nat.leb_spec 2 (length leg)) as [Hge | Hlt].
  - cbn [fold_left]. apply IH.
  - rewrite connectStep_short by lia. apply IH.
Qed.

End Connect.

End ConnectSpec.

(** ** Segmenter *)

Module SegmenterSpec.

Import Js Geo App.
Local Open Scope js_scope.

Section Segmenter.
Context {num : Type} {N : Number num} {T : Turf num}.

Variables speed_mps turnTime_s budget_s : num.

(** The legs a state has consumed so far: those of the closed segments,
    then those of the running one. *)
Definition consumed (st : @SegState num) : list Leg :=
  concat (map (@legs num) (segs st)) ++ current st.

Lemma fold_left_preserves {A B : Type} (P : A -> Prop) (f : A -> B -> A) :
  (forall a b, P a -> P (f a b)) ->
  forall l a, P a -> P (fold_left f l a).
Proof.
  intros Hstep l. induction l as [| b l IH]; intros a Ha; cbn; auto.
Qed.

(** The two shapes of one step: the running segment is closed first, or
    it is extended. *)
Lemma segStep_cases (st : SegState) (leg : Leg) :
  let '(t, d) := legTimeAndDist speed_mps leg in
  (current st <> []
   /\ (timeAccum st + t + turnTime_s >? budget_s) = true
   /\ segStep speed_mps turnTime_s budget_s st leg
      = {| segs := segs st ++ [closeSegment (current st) (timeAccum st)];
           current := [leg];
           timeAccum := lit 0 + (t + turnTime_s);
           distAccum := lit 0 + d |})
  \/ ((current st = [] \/ (timeAccum st + t + turnTime_s >? budget_s) = false)
      /\ segStep speed_mps turnTime_s budget_s st leg
         = {| segs := segs st;
              current := current st ++ [leg];
              timeAccum := timeAccum st + (t + turnTime_s);
              distAccum := distAccum st + d |}).
Proof.
  unfold segStep.
  destruct (legTimeAndDist speed_mps leg) as [t d].
  destruct ((0 <? length (current st))%nat
            && (timeAccum st + t + turnTime_s >? budget_s)) eqn:Hcond.
  - apply andb_true_iff in Hcond. destruct Hcond as [Hlen Hover].
    left. split; [| split; [exact Hover | reflexivity]].
    intros Hnil. rewrite Hnil in Hlen. discriminate.
  - apply andb_false_iff in Hcond.
    right. split; [| reflexivity].
    destruct Hcond as [Hlen | Hover]; [left | now right].
    destruct (current st); [reflexivity | discriminate].
Qed.

Lemma consumed_step (st : SegState) (leg : Leg) :
  consumed (segStep speed_mps turnTime_s budget_s st leg) = consumed st ++ [leg].
Proof.
  pose proof (segStep_cases st leg) as H.
  destruct (legTimeAndDist speed_mps leg) as [t d].
  destruct H as [(_ & _ & ->) | (_ & ->)]; unfold consumed; cbn.
  - rewrite map_app, concat_app. cbn. now rewrite app_nil_r, <- app_assoc.
  - now rewrite app_assoc.
Qed.

Lemma consumed_fold (legs0 : list Leg) (st : SegState) :
  consumed (fold_left (segStep speed_mps turnTime_s budget_s) legs0 st) = consumed st ++ legs0.
Proof.
  revert st. induction legs0 as [| leg rest IH]; intros st; cbn.
  - now rewrite app_nil_r.
  - rewrite IH, consumed_step, <- app_assoc. reflexivity.
Qed.

Lemma segments_nonempty_step (st : SegState) (leg : Leg) :
  Forall (fun s => @legs num s <> []) (segs st) ->
  Forall (fun s => @legs num s <> []) (segs (segStep speed_mps turnTime_s budget_s st leg)).
Proof.
  intros Hall.
  pose proof (segStep_cases st leg) as H.
  destruct (legTimeAndDist speed_mps leg) as [t d].
  destruct H as [(Hne & _ & ->) | (_ & ->)]; cbn; [| assumption].
  apply Forall_app. split; [assumption |].
  constructor; [exact Hne | constructor].
Qed.

(** A segment meets the budget, or is a single leg. *)
Definition withinBudget (s : @Segment num) : Prop :=
  (time_s s <=? budget_s) = true \/ length (legs s) = 1%nat.

(** What the running segment satisfies between two legs. *)
Definition runningOk (st : @SegState num) : Prop :=
  (2 <= length (current st))%nat -> (timeAccum st <=? budget_s) = true.

Lemma closeSegment_within (cur : list Leg) (acc : num) :
  cur <> [] ->
  ((2 <= length cur)%nat -> (acc <=? budget_s) = true) ->
  withinBudget (closeSegment cur acc).
Proof.
  intros Hne Hrun. unfold withinBudget; cbn.
  destruct cur as [| l0 [| l1 rest]]; [congruence | now right |].
  left. apply Hrun. cbn. lia.
Qed.

(** The check [timeAccum + t + extraTurn > budget_s] and the update
    [timeAccum += t + extraTurn] associate their sums differently.  The
    two agree at a step when the sum is exact and compares with the
    budget. *)
Definition sumOk (acc t : num) : Prop :=
  acc + (t + turnTime_s) = acc + t + turnTime_s
  /\ comparable (acc + t + turnTime_s) budget_s.

(** The sums are exact at every step of the run from [st] over [legs0]. *)
Fixpoint exactRun (st : @SegState num) (legs0 : list Leg) : Prop :=
  match legs0 with
  | [] => True
  | leg :: rest =>
      sumOk (timeAccum st) (fst (legTimeAndDist speed_mps leg))
      /\ exactRun (segStep speed_mps turnTime_s budget_s st leg) rest
  end.

Lemma within_step (st : SegState) (leg : Leg) :
  sumOk (timeAccum st) (fst (legTimeAndDist speed_mps leg)) ->
  Forall withinBudget (segs st) /\ runningOk st ->
  Forall withinBudget (segs (segStep speed_mps turnTime_s budget_s st leg))
  /\ runningOk (segStep speed_mps turnTime_s budget_s st leg).
Proof.
  intros [Hexact [Hcmp _]] [Hall Hrun].
  pose proof (segStep_cases st leg) as H.
  destruct (legTimeAndDist speed_mps leg) as [t d]. cbn [fst] in *.
  destruct H as [(Hne & _ & ->) | ([Hnil | Hfit] & ->)]; cbn; split.
  - apply Forall_app. split; [assumption |].
    constructor; [| constructor]. now apply closeSegment_within.
  - unfold runningOk; cbn. lia.
  - assumption.
  - unfold runningOk; cbn. rewrite Hnil; cbn. lia.
  - assumption.
  - unfold runningOk; cbn. intros _.
    rewrite Hexact, Hcmp, Hfit. reflexivity.
Qed.

Lemma within_fold (legs0 : list Leg) (st : SegState) :
  exactRun st legs0 ->
  Forall withinBudget (segs st) /\ runningOk st ->
  Forall withinBudget (segs (fold_left (segStep speed_mps turnTime_s budget_s) legs0 st))
  /\ runningOk (fold_left (segStep speed_mps turnTime_s budget_s) legs0 st).
Proof.
  revert st. induction legs0 as [| leg rest IH]; intros st Hrun Hinv; cbn [fold_left].
  - exact Hinv.
  - destruct Hrun as [Hok Hrest]. apply IH; [exact Hrest |].
    now apply within_step.
Qed.

Lemma exactRun_exact {O : TotalOrder num} {E : ExactSum num}
    (legs0 : list Leg) (st : SegState) : exactRun st legs0.
Proof.
  revert st. induction legs0 as [| leg rest IH]; intros st; cbn [exactRun].
  - exact I.
  - split; [| apply IH]. split; [apply nadd_assoc |].
    apply OrderFacts.TotalOrder_comparable.
Qed.

End Segmenter.

Section Claims.
Context {num : Type} {N : Number num} {T : Turf num}.

(** C1.  For every leg list, speed, turn time and battery cap, the legs of
    the segments returned by [segmentByCap], concatenated in segment
    order, are exactly the input leg list. *)
Theorem segmentByCap_concat (legs0 : list Leg) (speed_mps turnTime_s cap_min : num) :
  concat (map (@legs num) (segmentByCap legs0 speed_mps turnTime_s cap_min)) = legs0.
Proof.
  unfold segmentByCap.
  set (st0 := {| segs := []; current := []; timeAccum := lit 0; distAccum := lit 0 |}).
  pose proof (consumed_fold speed_mps turnTime_s (budgetOf cap_min) legs0 st0) as H.
  set (st := fold_left _ legs0 st0) in *.
  unfold consumed in H; cbn in H.
  destruct (current st) as [| l0 rest] eqn:Hcur; cbn [length Nat.ltb Nat.leb].
  - now rewrite app_nil_r in H.
  - rewrite map_app, concat_app. cbn. now rewrite app_nil_r.
Qed.

(** C9.  [segmentByCap] never emits an empty segment: every returned
    segment holds at least one leg, and an empty leg list gives an empty
    segment list. *)
Theorem segmentByCap_nonempty (legs0 : list Leg) (speed_mps turnTime_s cap_min : num) :
  Forall (fun s => (1 <= length (legs s))%nat)
         (segmentByCap legs0 speed_mps turnTime_s cap_min)
  /\ segmentByCap [] speed_mps turnTime_s cap_min = [].
Proof.
  split; [| reflexivity].
  assert (Hne : Forall (fun s => @legs num s <> [])
                  (segmentByCap legs0 speed_mps turnTime_s cap_min)).
  { unfold segmentByCap.
    set (st0 := {| segs := []; current := []; timeAccum := lit 0; distAccum := lit 0 |}).
    assert (Hst : Forall (fun s => @legs num s <> [])
                    (segs (fold_left (segStep speed_mps turnTime_s (budgetOf cap_min))
                                     legs0 st0))).
    { apply (fold_left_preserves
               (fun st => Forall (fun s => @legs num s <> []) (segs st))).
      - intros st leg. apply segments_nonempty_step.
      - constructor. }
    set (st := fold_left _ legs0 st0) in *.
    destruct (current st) as [| l0 rest] eqn:Hcur; cbn [length Nat.ltb Nat.leb].
    - exact Hst.
    - apply Forall_app. split; [exact Hst |].
      constructor; [cbn; discriminate | constructor]. }
  eapply Forall_impl; [| exact Hne].
  intros s Hs. cbn beta in Hs.
  destruct (legs s) as [| l0 rest]; [now elim Hs | cbn; lia].
Qed.

(** Every segment is within the budget or a single leg, on a run whose
    sums are exact. *)
Lemma segmentByCap_within_on_run (legs0 : list Leg) (speed_mps turnTime_s cap_min : num) :
  exactRun speed_mps turnTime_s (budgetOf cap_min)
    {| segs := []; current := []; timeAccum := lit 0; distAccum := lit 0 |} legs0 ->
  Forall (withinBudget (budgetOf cap_min))
         (segmentByCap legs0 speed_mps turnTime_s cap_min).
Proof.
  intros Hexact. unfold segmentByCap.
  set (st0 := {| segs := []; current := []; timeAccum := lit 0; distAccum := lit 0 |}) in *.
  assert (Hst : Forall (withinBudget (budgetOf cap_min))
                  (segs (fold_left (segStep speed_mps turnTime_s (budgetOf cap_min))
                                   legs0 st0))
                /\ runningOk (budgetOf cap_min)
                     (fold_left (segStep speed_mps turnTime_s (budgetOf cap_min))
                                legs0 st0)).
  { apply within_fold; [exact Hexact |].
    split; [constructor |]. unfold runningOk; cbn. lia. }
  set (st := fold_left _ legs0 st0) in *.
  destruct Hst as [Hall Hrun].
  destruct (current st) as [| l0 rest] eqn:Hcur; cbn [length Nat.ltb Nat.leb].
  - exact Hall.
  - apply Forall_app. split; [exact Hall |].
    constructor; [| constructor].
    apply closeSegment_within; [discriminate |].
    unfold runningOk in Hrun. now rewrite Hcur in Hrun.
Qed.

End Claims.

End SegmenterSpec.

(** ** Mission serializer *)

Module WriterSpec.

Import Js Qgc MonadNotation.
Local Open Scope js_scope.
Local Open Scope monad_scope.

Section Writer.
Context {num : Type} {N : Number num}.

(** The waypoint [wp] builds when the counter stands at [id]. *)
Definition waypointAt (relAlt_m : num) (id : Z) (p : num * num) : MissionItem num :=
  fst (runState (wp (fst p) (snd p) relAlt_m) id).

(** The waypoints of a run of points, numbered from [id]. *)
Fixpoint waypointsFrom (relAlt_m : num) (id : Z) (pts : list (num * num))
    : list (MissionItem num) :=
  match pts with
  | [] => []
  | p :: rest => waypointAt relAlt_m id p :: waypointsFrom relAlt_m (id + 1) rest
  end.

Lemma waypointsFrom_app (relAlt_m : num) (pts pts' : list (num * num)) (id : Z) :
  waypointsFrom relAlt_m id (pts ++ pts')
  = waypointsFrom relAlt_m id pts
    ++ waypointsFrom relAlt_m (id + Z.of_nat (length pts)) pts'.
Proof.
  revert id. induction pts as [| p rest IH]; intros id.
  - cbn. now rewrite Z.add_0_r.
  - cbn [app waypointsFrom length]. rewrite IH. cbn [app].
    do 3 f_equal. lia.
Qed.

Lemma pushLine_run (relAlt_m : num) (line : list (num * num))
    (acc : list (MissionItem num)) (id : Z) :
  runState (pushLine relAlt_m line acc) id
  = (acc ++ waypointsFrom relAlt_m id line, (id + Z.of_nat (length line))%Z).
Proof.
  revert acc id. induction line as [| [lat lon] rest IH]; intros acc id.
  - cbn. now rewrite app_nil_r, Z.add_0_r.
  - cbn [pushLine]. cbn -[pushLine Z.add Z.of_nat]. rewrite IH.
    rewrite <- app_assoc. cbn [app length waypointsFrom].
    f_equal. lia.
Qed.

Lemma pushLines_run (relAlt_m : num) (lines : list (list (num * num)))
    (acc : list (MissionItem num)) (id : Z) :
  runState (pushLines relAlt_m lines acc) id
  = (acc ++ waypointsFrom relAlt_m id (concat lines),
     (id + Z.of_nat (length (concat lines)))%Z).
Proof.
  revert acc id. induction lines as [| line rest IH]; intros acc id.
  - cbn. now rewrite app_nil_r, Z.add_0_r.
  - cbn [pushLines]. cbn -[pushLines pushLine Z.add Z.of_nat].
    destruct (runState (pushLine relAlt_m line acc) id) as [acc' id'] eqn:Hrun.
    rewrite pushLine_run in Hrun. injection Hrun as <- <-.
    rewrite IH. cbn [concat]. rewrite waypointsFrom_app, <- app_assoc, length_app.
    f_equal. lia.
Qed.

(** The trigger item of a fresh call. *)
Definition triggerItem (trigger_m : num) : MissionItem num :=
  fst (runState (camTrigDist trigger_m) 1%Z).

(** The item list of one call, whatever the counter held before. *)
Lemma makePlan_items_eq (idCounter : Z) (opts : MakePlanOptions num) :
  items (mission (makePlanFrom idCounter opts))
  = triggerItem (trigger_m opts)
    :: waypointsFrom (relAlt_m opts) 2 (concat (gridLines opts)).
Proof.
  unfold makePlanFrom, makePlan.
  cbn -[pushLines Z.add].
  destruct (runState (pushLines _ _ _) _) as [its id'] eqn:Hrun.
  rewrite pushLines_run in Hrun. injection Hrun as <- _.
  reflexivity.
Qed.

Lemma waypointsFrom_length (relAlt_m : num) (pts : list (num * num)) (id : Z) :
  length (waypointsFrom relAlt_m id pts) = length pts.
Proof.
  revert id. induction pts as [| p rest IH]; intros id; cbn; [| rewrite IH]; reflexivity.
Qed.

Lemma waypointsFrom_nth (relAlt_m : num) (pts : list (num * num)) (id : Z)
    (k : nat) (it : MissionItem num) :
  nth_error (waypointsFrom relAlt_m id pts) k = Some it ->
  doJumpId it = (id + Z.of_nat k)%Z.
Proof.
  revert id k. induction pts as [| p rest IH]; intros id k; cbn [waypointsFrom].
  - destruct k; discriminate.
  - destruct k as [| k]; cbn [nth_error].
    + intros [= <-]. cbn. lia.
    + intros H. apply IH in H. lia.
Qed.

Lemma waypointsFrom_shape (relAlt_m : num) (pts : list (num * num)) (id : Z) :
  map (fun it => (command it, frame it, params it)) (waypointsFrom relAlt_m id pts)
  = map (fun p => (16%Z, 3%Z,
                   [lit 0; lit 0; lit 0; lit 0; fst p; snd p; relAlt_m])) pts.
Proof.
  revert id. induction pts as [| p rest IH]; intros id; cbn [waypointsFrom map].
  - reflexivity.
  - rewrite IH. reflexivity.
Qed.

Lemma waypointsFrom_autoContinue (relAlt_m : num) (pts : list (num * num)) (id : Z) :
  Forall (fun it => autoContinue it = true) (waypointsFrom relAlt_m id pts).
Proof.
  revert id. induction pts as [| p rest IH]; intros id; cbn [waypointsFrom];
    constructor; [reflexivity | apply IH].
Qed.

Lemma length_concat_sum {A : Type} (ls : list (list A)) :
  length (concat ls) = list_sum (map (@length A) ls).
Proof.
  induction ls as [| l rest IH]; cbn; [reflexivity |].
  now rewrite length_app, IH.
Qed.

(** C2.  For every home position, relative altitude, trigger distance and
    leg list, the plan returned by [makePlan] has as item 0 a
    camera-trigger-distance command ([command = 206],
    [params = [triggerDistance, 0, 0, 0, 0, 0, 0]]), followed by exactly one
    waypoint per point across all legs in leg order, each with
    [command = 16], [frame = 3] (global, relative altitude) and
    [params = [0, 0, 0, 0, lat, lon, relativeAltitude]]; every item has
    [autoContinue = true]; the item count is 1 plus the total number of
    points; and [plannedHomePosition = [homeLat, homeLon, 0]]. *)
Theorem makePlan_items_shape (idCounter : Z) (opts : MakePlanOptions num) :
  let plan := makePlanFrom idCounter opts in
  let its := items (mission plan) in
  (exists t,
      nth_error its 0 = Some t
      /\ command t = 206%Z
      /\ params t = [trigger_m opts; lit 0; lit 0; lit 0; lit 0; lit 0; lit 0])
  /\ map (fun it => (command it, frame it, params it)) (tl its)
     = map (fun p => (16%Z, 3%Z,
                      [lit 0; lit 0; lit 0; lit 0; fst p; snd p; relAlt_m opts]))
           (concat (gridLines opts))
  /\ Forall (fun it => autoContinue it = true) its
  /\ length its = (1 + list_sum (map (@length (num * num)) (gridLines opts)))%nat
  /\ plannedHomePosition (mission plan) = (homeLat opts, homeLon opts, lit 0).
Proof.
  cbv zeta. rewrite makePlan_items_eq. repeat split.
  - exists (triggerItem (trigger_m opts)). repeat split.
  - cbn [tl]. apply waypointsFrom_shape.
  - constructor; [reflexivity | apply waypointsFrom_autoContinue].
  - cbn [length]. now rewrite waypointsFrom_length, length_concat_sum.
  - unfold makePlanFrom, makePlan. cbn -[pushLines].
    now destruct (runState (pushLines _ _ _) _).
Qed.

(** What a call returns and where it leaves the counter, whatever the
    counter held before. *)
Lemma makePlan_run (idCounter : Z) (opts : MakePlanOptions num) :
  runState (makePlan opts) idCounter
  = (makePlanFrom 1 opts, (2 + Z.of_nat (length (concat (gridLines opts))))%Z).
Proof.
  unfold makePlanFrom, makePlan. cbn -[pushLines Z.add Z.of_nat].
  destruct (runState (pushLines _ _ _) _) as [its id'] eqn:Hrun.
  rewrite pushLines_run in Hrun. injection Hrun as <- <-.
  reflexivity.
Qed.

(** C5.  Within one call of [makePlan] the item at position [k] has
    [doJumpId = k + 1], so the identifiers are the consecutive integers
    from 1, strictly increasing; and the counter is reset at the start of
    the call, so the plan does not depend on what earlier calls left in
    the counter: two calls with equal inputs, one after the other, return
    equal plans. *)
Theorem makePlan_doJumpId (idCounter idCounter' : Z) (opts : MakePlanOptions num) :
  (forall k it,
      nth_error (items (mission (makePlanFrom idCounter opts))) k = Some it ->
      doJumpId it = (Z.of_nat k + 1)%Z)
  /\ makePlanFrom idCounter opts = makePlanFrom idCounter' opts
  /\ (let twice :=
         p1 <- makePlan opts ;;
         p2 <- makePlan opts ;;
         ret (p1, p2) in
       let '(p1, p2) := fst (runState twice idCounter) in
       p1 = p2).
Proof.
  split; [| split].
  - intros k it. rewrite makePlan_items_eq.
    destruct k as [| k]; cbn [nth_error].
    + intros [= <-]. reflexivity.
    + intros H. apply waypointsFrom_nth in H. lia.
  - unfold makePlanFrom. now rewrite !makePlan_run.
  - cbn -[makePlan]. rewrite makePlan_run. cbn -[makePlan].
    rewrite makePlan_run. reflexivity.
Qed.

End Writer.

End WriterSpec.

(** ** Path orientation *)

Module OrientSpec.

Import Js Geo App.
Local Open Scope js_scope.

Section Orient.
Context {num : Type} {N : Number num} {T : Turf num}.

Lemma final_rev (l : list (num * num)) : l <> [] -> final (rev l) = first l.
Proof.
  destruct l as [| a l]; [congruence | intros _].
  unfold final, first. cbn [rev hd]. apply last_last.
Qed.

Lemma first_rev (l : list (num * num)) : l <> [] -> first (rev l) = final l.
Proof.
  intros Hne. rewrite <- (rev_involutive l) at 2.
  symmetry. apply final_rev.
  intros Hnil. apply (f_equal (@rev _)) in Hnil.
  rewrite rev_involutive in Hnil. contradiction.
Qed.

Lemma first_swap (l : list (num * num)) : first (map swap l) = swap (first l).
Proof. destruct l; reflexivity. Qed.

Lemma final_swap (l : list (num * num)) : final (map swap l) = swap (final l).
Proof.
  unfold final. induction l as [| a [| b l] IH]; try reflexivity.
  exact IH.
Qed.

(** C6.  For every stitched path with at least 2 points and every home
    point whose distances to the two ends of the path compare: the
    oriented path is the stitched path reversed when the distance from
    home to the path's last point is strictly smaller than the distance to
    its first point, and the stitched path unchanged otherwise (ties keep
    the direction); so the oriented path starts at the endpoint nearer to
    home.  The oriented path lists its points as [[lon, lat]], the
    stitched path as [[lat, lon]]. *)
Theorem orientedPath_rule (raw : list LatLon) (home : LatLon) :
  (2 <= length raw)%nat ->
  let homeLL := swap home in
  let dFirst := turfDistance homeLL (swap (first raw)) in
  let dLast := turfDistance homeLL (swap (final raw)) in
  let oriented := orientedPathLonLat raw home in
  comparable dFirst dLast ->
  ((dLast <? dFirst) = true -> oriented = map swap (rev raw))
  /\ ((dLast <? dFirst) = false -> oriented = map swap raw)
  /\ (turfDistance homeLL (first oriented) <=? turfDistance homeLL (final oriented)) = true.
Proof.
  intros Hlen. cbv zeta. unfold orientedPathLonLat.
  destruct (Nat.ltb_spec (length raw) 2) as [Hlt | _]; [lia |].
  assert (Hne : map swap raw <> []) by (destruct raw; [cbn in Hlen; lia | discriminate]).
  rewrite first_swap, final_swap.
  change (snd home, fst home) with (swap home).
  set (dFirst := turfDistance (swap home) (swap (first raw))).
  set (dLast := turfDistance (swap home) (swap (final raw))).
  intros [Hcmp Hweak].
  destruct (dFirst <=? dLast) eqn:Hle; symmetry in Hcmp.
  - apply negb_true_iff in Hcmp. split; [| split].
    + congruence.
    + reflexivity.
    + rewrite first_swap, final_swap. exact Hle.
  - apply negb_false_iff in Hcmp. split; [| split].
    + intros _. now rewrite map_rev.
    + congruence.
    + rewrite first_rev, final_rev by exact Hne.
      rewrite first_swap, final_swap.
      apply Hweak, Hcmp.
Qed.

End Orient.

End OrientSpec.

(** ** Grid builder *)

Module GridSpec.

Import Js Geo App.
Local Open Scope js_scope.

(** Direction alternates by position over a leg list read against its
    kept pieces: leg [k] is piece [k] forward for even [k], reversed for
    odd [k]. *)
Definition alternatesByPosition {num : Type} (kept legs : list (@Leg num)) : Prop :=
  length legs = length kept
  /\ forall k piece leg,
       nth_error kept k = Some piece ->
       nth_error legs k = Some leg ->
       if Nat.even k then forward piece leg else reversed piece leg.

Section ZigZag.
Context {num : Type}.

Lemma mod2_even (n : nat) : (n mod 2 =? 0)%nat = Nat.even n.
Proof.
  rewrite <- Nat.negb_odd, <- Nat.bit0_mod, Nat.bit0_odd.
  now destruct (Nat.odd n).
Qed.

Lemma zigzagFrom_length (kept : list (@Leg num)) (start : nat) :
  length (zigzagFrom start kept) = length kept.
Proof.
  revert start. induction kept as [| p rest IH]; intros start; cbn; [| rewrite IH];
    reflexivity.
Qed.

Lemma zigzagFrom_snoc (kept : list (@Leg num)) (p : Leg) (start : nat) :
  zigzagFrom start (kept ++ [p])
  = zigzagFrom start kept
    ++ [if Nat.even (start + length kept) then p else rev p].
Proof.
  revert start. induction kept as [| q rest IH]; intros start; cbn [app zigzagFrom length].
  - now rewrite Nat.add_0_r.
  - rewrite IH. now rewrite Nat.add_succ_r.
Qed.

Lemma zigzagFrom_nth (kept : list (@Leg num)) (start k : nat) (piece leg : Leg) :
  nth_error kept k = Some piece ->
  nth_error (zigzagFrom start kept) k = Some leg ->
  leg = if Nat.even (start + k) then piece else rev piece.
Proof.
  revert start k. induction kept as [| q rest IH]; intros start k.
  - destruct k; discriminate.
  - destruct k as [| k]; cbn [nth_error zigzagFrom].
    + intros [= ->] [= <-]. now rewrite Nat.add_0_r.
    + intros Hp Hl. rewrite Nat.add_succ_r. exact (IH (S start) k Hp Hl).
Qed.

Lemma zigzag_alternates (kept : list (@Leg num)) :
  alternatesByPosition kept (zigzag kept).
Proof.
  split; [apply zigzagFrom_length |].
  intros k piece leg Hp Hl.
  pose proof (zigzagFrom_nth kept 0 k Hp Hl) as H. cbn [Nat.add] in H.
  destruct (Nat.even k); exact H.
Qed.

(** Why crosshatch breaks the alternation of the whole output: when the
    primary pass keeps an odd number of pieces, the first cross leg lands
    on an odd index and is forward there. *)
Lemma odd_primary_breaks_alternation (kp kc : list (@Leg num)) (piece : Leg) :
  Nat.odd (length kp) = true ->
  nth_error kc 0 = Some piece ->
  piece <> rev piece ->
  ~ alternatesByPosition (kp ++ kc) (allLegs true (zigzag kp) (zigzag kc)).
Proof.
  intros Hodd Hpiece Hdir [_ Halt].
  destruct kc as [| p rest]; [discriminate |].
  injection Hpiece as ->.
  specialize (Halt (length kp) piece piece).
  rewrite nth_error_app2, Nat.sub_diag in Halt by lia.
  cbn [allLegs] in Halt.
  assert (Hlen : length (zigzag kp) = length kp) by apply zigzagFrom_length.
  rewrite nth_error_app2 in Halt by lia.
  replace (length kp - length (zigzag kp))%nat with 0%nat in Halt by lia.
  specialize (Halt eq_refl eq_refl).
  rewrite <- Nat.negb_odd, Hodd in Halt. cbn [negb] in Halt.
  exact (Hdir Halt).
Qed.

End ZigZag.

Section Grid.
Context {num : Type} {N : Number num} {T : Turf num}.

Lemma pushPiece_zigzag (poly : Polygon num) (kept : list Leg) (seg : LineFeature num) :
  pushPiece poly (zigzag kept) seg = zigzag (keepPiece poly kept seg).
Proof.
  unfold pushPiece, keepPiece.
  destruct (geometry seg) as [coords |]; [| reflexivity].
  destruct (length coords <? 2)%nat; [reflexivity |].
  destruct (booleanPointInPolygon _ poly); [| reflexivity].
  unfold zigzag. rewrite mod2_even.
  pose proof (zigzagFrom_snoc kept (map swap coords) 0) as H.
  rewrite <- (zigzagFrom_length kept 0) in H. cbn [Nat.add] in H.
  symmetry. exact H.
Qed.

Lemma pushPieces_zigzag (poly : Polygon num) (pieces : list (LineFeature num))
    (kept : list Leg) :
  fold_left (pushPiece poly) pieces (zigzag kept)
  = zigzag (fold_left (keepPiece poly) pieces kept).
Proof.
  revert kept. induction pieces as [| seg rest IH]; intros kept; cbn [fold_left].
  - reflexivity.
  - rewrite pushPiece_zigzag. apply IH.
Qed.

Lemma gridLoop_zigzag (fuel : nat) (poly : Polygon num) (baseLine : LineFeature num)
    (spacing_m ortho halfSteps i : num) (kept : list Leg) :
  gridLoop fuel poly baseLine spacing_m ortho halfSteps i (zigzag kept)
  = option_map zigzag (keptLoop fuel poly baseLine spacing_m ortho halfSteps i kept).
Proof.
  revert i kept. induction fuel as [| fuel IH]; intros i kept; cbn [gridLoop keptLoop].
  - reflexivity.
  - destruct (i <=? halfSteps); [| reflexivity].
    rewrite pushPieces_zigzag. apply IH.
Qed.

(** One pass of the grid builder returns its kept pieces with every
    second one reversed. *)
Lemma buildGrid_zigzag (fuel : nat) (poly : Polygon num) (headingDeg spacing_m : num) :
  buildGridInsidePolygon fuel poly headingDeg spacing_m
  = option_map zigzag (keptPaths fuel poly headingDeg spacing_m).
Proof.
  unfold buildGridInsidePolygon, keptPaths.
  exact (gridLoop_zigzag fuel poly _ _ _ _ _ []).
Qed.

(** C7, as the code has it.  Each pass of the grid builder alternates leg
    direction by position in that pass: leg 0 forward, leg 1 reversed,
    leg 2 forward, and so on.  Without crosshatch the output leg sequence
    is the primary pass.  With crosshatch it is the primary pass followed
    by the cross pass, and the alternation starts again at the first cross
    leg: the leg at index [|primary| + j] is forward for even [j] and
    reversed for odd [j]. *)
Theorem allLegs_alternate_per_pass (fuel : nat) (poly : Polygon num)
    (heading across_m : num) (lp lc : list Leg) :
  buildGridInsidePolygon fuel poly heading across_m = Some lp ->
  buildGridInsidePolygon fuel poly ((heading + lit 90) mod lit 360) across_m = Some lc ->
  exists kp kc,
    keptPaths fuel poly heading across_m = Some kp
    /\ keptPaths fuel poly ((heading + lit 90) mod lit 360) across_m = Some kc
    /\ alternatesByPosition kp (allLegs false lp lc)
    /\ length (allLegs true lp lc) = (length kp + length kc)%nat
    /\ (forall k piece leg,
          nth_error kp k = Some piece ->
          nth_error (allLegs true lp lc) k = Some leg ->
          if Nat.even k then forward piece leg else reversed piece leg)
    /\ (forall j piece leg,
          nth_error kc j = Some piece ->
          nth_error (allLegs true lp lc) (length kp + j) = Some leg ->
          if Nat.even j then forward piece leg else reversed piece leg).
Proof.
  rewrite !buildGrid_zigzag.
  destruct (keptPaths fuel poly heading across_m) as [kp |]; [| discriminate].
  destruct (keptPaths fuel poly _ across_m) as [kc |]; [| discriminate].
  cbn [option_map]. intros [= <-] [= <-].
  exists kp, kc.
  destruct (zigzag_alternates kp) as [Hlp Hp].
  destruct (zigzag_alternates kc) as [Hlc Hc].
  cbn [allLegs].
  repeat split; try assumption.
  - rewrite length_app. congruence.
  - intros k piece leg Hk Hl.
    assert (Hlt : (k < length (zigzag kp))%nat).
    { rewrite Hlp. apply nth_error_Some. congruence. }
    rewrite nth_error_app1 in Hl by exact Hlt. exact (Hp k piece leg Hk Hl).
  - intros j piece leg Hj Hl.
    rewrite <- Hlp, nth_error_app2 in Hl by lia.
    replace (length (zigzag kp) + j - length (zigzag kp))%nat with j in Hl by lia.
    exact (Hc j piece leg Hj Hl).
Qed.

End Grid.

End GridSpec.

(** ** Stitching against serialization *)

Module StitchSpec.

Import Js Geo Qgc App.

Section Stitch.
Context {num : Type} {N : Number num}.

(** C10.  [connectLegs] skips every leg with fewer than 2 points: for
    every leg list the stitched path is the stitched path of the sublist
    of legs with at least 2 points, so a degenerate leg contributes no
    point to the route; the mission serializer, for its part, emits a
    waypoint for every point of every leg, degenerate legs included. *)
Theorem connectLegs_skips_short_legs (legs0 : list (@Leg num)) :
  connectLegs legs0
  = connectLegs (filter (fun leg => (2 <=? length leg)%nat) legs0)
  /\ forall (idCounter : Z) (opts : MakePlanOptions num),
       length (items (mission (makePlanFrom idCounter opts)))
       = (1 + list_sum (map (@length (num * num)) (gridLines opts)))%nat.
Proof.
  split.
  - unfold connectLegs. apply ConnectSpec.connect_fold_filter.
  - intros idCounter opts. rewrite WriterSpec.makePlan_items_eq. cbn [length].
    now rewrite WriterSpec.waypointsFrom_length, WriterSpec.length_concat_sum.
Qed.

End Stitch.

End StitchSpec.

(** ** Concrete runs *)

Module Runs.

Import Js Geo App TestGeometry Float64 Exact ExactFacts.
Local Open Scope js_scope.

(** *** Binary64: the grid builder at a spacing of zero *)

Section Unbounded.
Context {T : Turf float}.

(** From [i = -Infinity] the loop test [i <= Infinity] holds and [i++]
    leaves [i] where it is: no amount of fuel reaches the end. *)
Lemma gridLoop_unbounded (fuel : nat) (poly : Polygon float)
    (baseLine : LineFeature float) (spacing_m ortho : float) (legs0 : list Leg) :
  gridLoop fuel poly baseLine spacing_m ortho infinity neg_infinity legs0 = None.
Proof.
  revert legs0. induction fuel as [| fuel IH]; intros legs0; cbn [gridLoop].
  - reflexivity.
  - change (neg_infinity <=? infinity)%js with true. cbv iota.
    change (neg_infinity + lit 1)%js with neg_infinity.
    apply IH.
Qed.

(** Whenever the step count comes out infinite, the grid builder does not
    return. *)
Lemma buildGrid_unbounded (fuel : nat) (poly : Polygon float)
    (headingDeg spacing_m : float) :
  gridHalfSteps poly spacing_m = infinity ->
  buildGridInsidePolygon fuel poly headingDeg spacing_m = None.
Proof.
  intros Hinf. unfold buildGridInsidePolygon. rewrite Hinf.
  change (- infinity)%js with neg_infinity.
  apply gridLoop_unbounded.
Qed.

(** With a spacing of zero the step count is infinite for every AOI whose
    bounding box has a side of positive length, whatever the geometry
    library returns otherwise: [cover_m / (2 * 0)] is [Infinity]. *)
Lemma gridHalfSteps_zero_spacing (poly : Polygon float) :
  (lit 0 <? gridExtent poly)%js = true ->
  gridHalfSteps poly 0%float = infinity.
Proof.
  intros Hpos. unfold gridHalfSteps.
  change (0%float * lit 4)%js with 0%float.
  change (lit 2 * 0%float)%js with 0%float.
  change (nceil (PrimFloat.div (PrimFloat.add (gridExtent poly) 0) 0) = infinity).
  rewrite OrderFacts.add_zero_positive, OrderFacts.div_zero_positive by exact Hpos.
  reflexivity.
Qed.

(** Hence the grid builder called with a spacing of zero never returns on
    such an AOI. *)
Lemma buildGrid_zero_spacing_unbounded (fuel : nat) (poly : Polygon float)
    (headingDeg : float) :
  (lit 0 <? gridExtent poly)%js = true ->
  buildGridInsidePolygon fuel poly headingDeg 0%float = None.
Proof.
  intros Hpos. apply buildGrid_unbounded. now apply gridHalfSteps_zero_spacing.
Qed.

End Unbounded.

(** C3, at a failing input.  On the 500 m square, heading 0, with an
    across-track spacing of 0 the step count is
    [Math.ceil(500 / 0) = Infinity] and the grid builder never returns,
    whatever the fuel; called from the component through [legsPrimary] it
    does not return either.  With a spacing of -500 it returns one leg,
    not an empty list. *)
Theorem buildGrid_nonpositive_spacing :
  gridHalfSteps (T := flat) square 0%float = infinity
  /\ (forall fuel : nat,
        buildGridInsidePolygon (T := flat) fuel square 0%float 0%float = None)
  /\ (forall fuel : nat,
        legsPrimary (T := flat) fuel (Some square) 0%float 0%float = None)
  /\ buildGridInsidePolygon (T := flat) 6 square 0%float (-500)%float
     = Some [[(0%float, 0.25%float); (0.5%float, 0.25%float)]].
Proof.
  assert (Hinf : gridHalfSteps (T := flat) square 0%float = infinity)
    by (vm_compute; reflexivity).
  split; [exact Hinf | split; [| split]].
  - intros fuel. now apply buildGrid_unbounded.
  - intros fuel. cbn [legsPrimary square length Nat.ltb Nat.leb].
    now apply buildGrid_unbounded.
  - vm_compute. reflexivity.
Qed.

(** *** Binary64: crosshatch on the square *)

(** The square at heading 0 with 187.5 m between lines: three legs per
    pass, as [[lat, lon]] pairs. *)
Definition primaryLegs : list (@Leg float) :=
  [ [(0%float, 0.0625%float); (0.5%float, 0.0625%float)];
    [(0.5%float, 0.25%float); (0%float, 0.25%float)];
    [(0%float, 0.4375%float); (0.5%float, 0.4375%float)] ].

Definition crossLegs : list (@Leg float) :=
  [ [(0.4375%float, 0%float); (0.4375%float, 0.5%float)];
    [(0.25%float, 0.5%float); (0.25%float, 0%float)];
    [(0.0625%float, 0%float); (0.0625%float, 0.5%float)] ].

Definition primaryKept : list (@Leg float) :=
  [ [(0%float, 0.0625%float); (0.5%float, 0.0625%float)];
    [(0%float, 0.25%float); (0.5%float, 0.25%float)];
    [(0%float, 0.4375%float); (0.5%float, 0.4375%float)] ].

Definition crossKept : list (@Leg float) :=
  [ [(0.4375%float, 0%float); (0.4375%float, 0.5%float)];
    [(0.25%float, 0%float); (0.25%float, 0.5%float)];
    [(0.0625%float, 0%float); (0.0625%float, 0.5%float)] ].

(** C7 fails with crosshatch.  On the 500 m square, heading 0, spacing
    187.5 m, the primary pass yields 3 legs and the cross pass 3 more.  The
    first cross leg sits at index 3 of the output, an odd index, and is
    forward, not reversed. *)
Lemma crosshatch_breaks_alternation :
  legsPrimary (T := flat) 10 (Some square) 0%float 187.5%float = Some primaryLegs
  /\ legsCross (T := flat) 10 true (Some square) 0%float 187.5%float = Some crossLegs
  /\ keptPaths (T := flat) 10 square 0%float 187.5%float = Some primaryKept
  /\ keptPaths (T := flat) 10 square 90%float 187.5%float = Some crossKept
  /\ nth_error (allLegs true primaryLegs crossLegs) 3 = nth_error crossKept 0
  /\ ~ GridSpec.alternatesByPosition (primaryKept ++ crossKept)
         (allLegs true primaryLegs crossLegs).
Proof.
  split; [vm_compute; reflexivity |].
  split; [vm_compute; reflexivity |].
  split; [vm_compute; reflexivity |].
  split; [vm_compute; reflexivity |].
  split; [reflexivity |].
  intros [_ Halt].
  specialize (Halt 3%nat _ _ eq_refl eq_refl).
  cbn [Nat.even] in Halt. unfold reversed in Halt.
  apply (f_equal (fun leg => PrimFloat.eqb (snd (first leg)) 0.5%float)) in Halt.
  vm_compute in Halt. discriminate.
Qed.

(** The per-pass alternation at the same input. *)
Lemma allLegs_alternate_per_pass_witness :
  buildGridInsidePolygon (T := flat) 10 square 0%float 187.5%float = Some primaryLegs
  /\ buildGridInsidePolygon (T := flat) 10 square 90%float 187.5%float = Some crossLegs
  /\ exists kp kc,
       keptPaths (T := flat) 10 square 0%float 187.5%float = Some kp
       /\ keptPaths (T := flat) 10 square ((0%float + lit 90) mod lit 360)%js 187.5%float
          = Some kc
       /\ GridSpec.alternatesByPosition kp (allLegs false primaryLegs crossLegs)
       /\ length (allLegs true primaryLegs crossLegs) = (length kp + length kc)%nat
       /\ (forall k piece leg,
             nth_error kp k = Some piece ->
             nth_error (allLegs true primaryLegs crossLegs) k = Some leg ->
             if Nat.even k then forward piece leg else reversed piece leg)
       /\ (forall j piece leg,
             nth_error kc j = Some piece ->
             nth_error (allLegs true primaryLegs crossLegs) (length kp + j) = Some leg ->
             if Nat.even j then forward piece leg else reversed piece leg).
Proof.
  split; [vm_compute; reflexivity |].
  split; [vm_compute; reflexivity |].
  apply (GridSpec.allLegs_alternate_per_pass (T := flat) 10 square 0%float 187.5%float).
  - vm_compute. reflexivity.
  - vm_compute. reflexivity.
Defined.

(** *** Binary64: segmentation *)

(** Three legs of 1 km each on the flat map, flown at 8 m/s with 3 s
    turns: a leg costs 128 s. *)
Definition kmLegs : list (@Leg float) :=
  [ [(0, 0); (1, 0)]; [(1, 0.125); (0, 0.125)]; [(0, 0.25); (1, 0.25)] ]%float.

(** Under a 6 minute cap (300 s of budget) the sums of this run are exact;
    the first segment takes two legs (256 s) and the third leg opens the
    second segment. *)
Lemma segmentByCap_binary64_run :
  SegmenterSpec.exactRun (T := flat) 8%float 3%float (budgetOf 6%float)
    {| segs := []; current := []; timeAccum := 0%float; distAccum := 0%float |} kmLegs
  /\ map (fun s => (length (legs s), time_s s))
         (segmentByCap (T := flat) kmLegs 8%float 3%float 6%float)
     = [(2%nat, 256%float); (1%nat, 128%float)].
Proof.
  split; [| vm_compute; reflexivity].
  vm_compute. repeat split; auto.
Qed.

(** *** Binary64: a segment over its budget *)

(** Two legs of 500 m and 1750 m on the flat map, flown at 15 m/s with
    15 s turns under a 4 minute cap (180 s of budget).  The first leg
    costs 33.33... + 15 s.  For the second the loop tests
    [(48.33... + 116.66...) + 15], which rounds to 180 and is not over the
    budget; it then adds [116.66... + 15] to the running time, which
    rounds to 180.00000000000003, the next binary64 number after 180. *)
Definition overLegs : list (@Leg float) :=
  [ [(0, 0); (0.5, 0)]; [(0, 0.125); (1.75, 0.125)] ]%float.

(** C4 fails on binary64: the run returns one segment of two legs whose
    recorded time is over the budget. *)
Lemma segmentByCap_over_budget :
  let segs0 := segmentByCap (T := flat) overLegs 15%float 15%float 4%float in
  let budget := nmax (lit 60) (4%float * lit 60 - lit 60) in
  budget = 180%float
  /\ map (fun s => (length (legs s), time_s s)) segs0
     = [(2%nat, 0x1.6800000000001p+7%float)]
  /\ map (fun s => ((time_s s <=? budget), (budget <? time_s s))) segs0 = [(false, true)]
  /\ ~ Forall (fun s => (time_s s <=? budget) = true \/ length (legs s) = 1%nat) segs0.
Proof.
  cbv zeta.
  split; [vm_compute; reflexivity |].
  split; [vm_compute; reflexivity |].
  split; [vm_compute; reflexivity |].
  intros Hall.
  assert (Hrun : exists s,
             segmentByCap (T := flat) overLegs 15%float 15%float 4%float = [s]
             /\ length (legs s) = 2%nat
             /\ (time_s s <=? nmax (lit 60) (4%float * lit 60 - lit 60)) = false).
  { eexists. split; [vm_compute; reflexivity |].
    split; [reflexivity | vm_compute; reflexivity]. }
  destruct Hrun as (s & Hs & Hlen & Hover). rewrite Hs in Hall.
  inversion Hall as [| s' rest [Hle | Hone] _]; subst; congruence.
Qed.

(** *** Binary64: orientation *)

(** A two-point path whose far end is the nearer one to home. *)
Lemma orientedPath_rule_witness :
  let raw : list (@LatLon float) := [(0, 0); (1, 1)]%float in
  let home : @LatLon float := (1, 1)%float in
  (2 <= length raw)%nat
  /\ orientedPathLonLat (T := flat) raw home = map swap (rev raw).
Proof.
  cbv zeta. split; [cbn; lia |].
  apply (OrientSpec.orientedPath_rule (T := flat) [(0, 0); (1, 1)]%float (1, 1)%float).
  - cbn. lia.
  - split; [vm_compute; reflexivity | intros _; vm_compute; reflexivity].
  - vm_compute. reflexivity.
Defined.

End Runs.

(** ** More on leg stitching *)

Module PathFacts.

Import Js Geo App.
Local Open Scope js_scope.

Section Path.
Context {num : Type} {N : Number num}.

(** The legs [connectLegs] does not skip. *)
Definition stitched (legs0 : list (@Leg num)) : list Leg :=
  filter (fun leg => (2 <=? length leg)%nat) legs0.

Lemma stitched_long (legs0 : list (@Leg num)) :
  Forall (fun leg => (2 <= length leg)%nat) (stitched legs0).
Proof.
  unfold stitched. apply Forall_forall. intros leg Hin.
  apply filter_In in Hin. destruct Hin as [_ Hlen]. now apply Nat.leb_le.
Qed.

Lemma last_app_nonempty {A : Type} (l m : list A) (d : A) :
  m <> [] -> last (l ++ m) d = last m d.
Proof.
  intros Hm. induction l as [| a l IH]; [reflexivity |].
  cbn [app]. destruct (l ++ m) eqn:Happ.
  - apply app_eq_nil in Happ. destruct Happ as [_ ->]. congruence.
  - exact IH.
Qed.

Lemma final_app_tl (out leg : list (num * num)) :
  (2 <= length leg)%nat -> final (out ++ tl leg) = final leg.
Proof.
  destruct leg as [| a [| b rest]]; cbn [length tl]; try lia. intros _.
  unfold final. rewrite last_app_nonempty by discriminate. reflexivity.
Qed.

Lemma first_app (out more : list (num * num)) :
  out <> [] -> first (out ++ more) = first out.
Proof. destruct out; [congruence | reflexivity]. Qed.

(** One leg of at least 2 points joins the path: it becomes the path when
    the path is empty; otherwise all its points are appended, or all but
    the first when that one repeats the path's last point. *)
Lemma connectStep_long (out : list (@LatLon num)) (leg : Leg) :
  (2 <= length leg)%nat ->
  let out' := connectStep out leg in
  final out' = final leg
  /\ first out' = (if (length out =? 0)%nat then first leg else first out)
  /\ (2 <= length out')%nat
  /\ (length out' <= length out + length leg)%nat
  /\ (length out + length leg
      <= length out' + (if (length out =? 0)%nat then 0 else 1))%nat.
Proof.
  intros Hlen. cbv zeta. unfold connectStep.
  destruct (Nat.ltb_spec (length leg) 2) as [Hlt | _]; [lia |].
  destruct out as [| o out]; cbn [length Nat.eqb].
  - cbn [app]. repeat split; lia.
  - set (path := o :: out).
    assert (Hpath : path <> []) by discriminate.
    assert (Htl : length (tl leg) = (length leg - 1)%nat)
      by (destruct leg; cbn; lia).
    destruct ((fst (final path) <>? fst (first leg))
              || (snd (final path) <>? snd (first leg))).
    + rewrite final_app_tl by exact Hlen.
      rewrite <- app_assoc, first_app by exact Hpath.
      rewrite !length_app, Htl. subst path. cbn [length]. repeat split; lia.
    + rewrite final_app_tl by exact Hlen.
      rewrite first_app by exact Hpath.
      rewrite !length_app, Htl. subst path. cbn [length]. repeat split; lia.
Qed.

(** The path after a run of legs of at least 2 points each. *)
Lemma connect_fold_long (good : list (@Leg num)) (out : list LatLon) :
  Forall (fun leg => (2 <= length leg)%nat) good ->
  good <> [] ->
  let path := fold_left connectStep good out in
  final path = final (last good [])
  /\ first path = (if (length out =? 0)%nat then first (hd [] good) else first out)
  /\ (2 <= length path)%nat
  /\ (length path <= length out + list_sum (map (@length _) good))%nat
  /\ (length out + list_sum (map (@length _) good)
      <= length path + (length good - (if (length out =? 0)%nat then 1 else 0)))%nat.
Proof.
  intros Hgood. revert out.
  induction Hgood as [| leg rest Hleg Hrest IH]; intros out Hne; [now elim Hne |].
  cbn [fold_left]. cbv zeta.
  destruct (connectStep_long out leg Hleg) as (Hfin & Hfst & Hlen2 & Hup & Hlow).
  destruct rest as [| leg' rest'].
  - cbn [fold_left last hd map length]. unfold list_sum. cbn [fold_right].
    split; [exact Hfin |]. split; [exact Hfst |]. split; [exact Hlen2 |].
    destruct (length out =? 0)%nat; split; lia.
  - specialize (IH (connectStep out leg) ltac:(discriminate)).
    cbv zeta in IH. destruct IH as (IHfin & IHfst & IHlen2 & IHup & IHlow).
    assert (Hnz : (length (connectStep out leg) =? 0)%nat = false)
      by (apply Nat.eqb_neq; lia).
    rewrite Hnz in IHfst, IHlow.
    split; [exact IHfin |].
    split; [now rewrite IHfst, Hfst |].
    split; [exact IHlen2 |].
    assert (Hsum : list_sum (map (@length _) (leg :: leg' :: rest'))
                   = (length leg + list_sum (map (@length _) (leg' :: rest')))%nat)
      by reflexivity.
    rewrite Hsum.
    change (length (leg :: leg' :: rest')) with (S (length (leg' :: rest'))).
    unfold Leg, LatLon in *.
    destruct (length out =? 0)%nat; split; lia.
Qed.

Lemma last_cons_default {A : Type} (l : list A) (a d : A) :
  last (a :: l) d = last l a.
Proof.
  revert a d. induction l as [| b l IH]; intros a d; [reflexivity |].
  change (last (a :: b :: l) d) with (last (b :: l) d).
  rewrite IH. symmetry. apply IH.
Qed.

Lemma connectLegs_stitched (legs0 : list (@Leg num)) :
  connectLegs legs0 = fold_left connectStep (stitched legs0) [].
Proof. unfold connectLegs, stitched. apply ConnectSpec.connect_fold_filter. Qed.

Lemma stitched_nil (legs0 : list (@Leg num)) :
  stitched legs0 = [] <-> Forall (fun leg => (length leg < 2)%nat) legs0.
Proof.
  unfold stitched. induction legs0 as [| leg rest IH]; cbn [filter].
  - split; [constructor | reflexivity].
  - destruct (Nat.leb_spec 2 (length leg)) as [Hge | Hlt].
    + split; [discriminate |]. intros H. inversion H; subst. lia.
    + rewrite IH. split; [now constructor |]. intros H. now inversion H.
Qed.

(** X1.  The stitched path is never a single point: it is empty or has at
    least 2 points, and it is empty exactly when every leg has fewer
    than 2 points. *)
Theorem connectLegs_empty_or_two (legs0 : list (@Leg num)) :
  (connectLegs legs0 = [] <-> Forall (fun leg => (length leg < 2)%nat) legs0)
  /\ (connectLegs legs0 = [] \/ (2 <= length (connectLegs legs0))%nat).
Proof.
  rewrite <- stitched_nil, connectLegs_stitched.
  destruct (stitched legs0) as [| l0 rest] eqn:Hgood.
  - split; [split; reflexivity | now left].
  - pose proof (stitched_long legs0) as Hlong. rewrite Hgood in Hlong.
    destruct (connect_fold_long [] Hlong ltac:(discriminate))
      as (_ & _ & Hlen & _).
    cbv zeta in Hlen. split; [| now right].
    split; [| discriminate].
    intros Hnil. rewrite Hnil in Hlen. cbn in Hlen. lia.
Qed.

(** X2.  The stitched path starts at the first point of the first leg of
    at least 2 points and ends at the last point of the last such leg. *)
Theorem connectLegs_endpoints (legs0 : list (@Leg num)) :
  match filter (fun leg => (2 <=? length leg)%nat) legs0 with
  | [] => connectLegs legs0 = []
  | l0 :: rest =>
      first (connectLegs legs0) = first l0
      /\ final (connectLegs legs0) = final (last rest l0)
  end.
Proof.
  rewrite connectLegs_stitched. unfold stitched.
  pose proof (stitched_long legs0) as Hlong. unfold stitched in Hlong.
  match goal with
  | |- context [filter ?f legs0] => destruct (filter f legs0) as [| l0 rest]
  end; [reflexivity |].
  destruct (connect_fold_long [] Hlong ltac:(discriminate))
    as (Hfin & Hfst & _).
  cbv zeta in Hfin, Hfst. cbn [length Nat.eqb hd] in Hfst.
  split; [exact Hfst |]. rewrite Hfin. f_equal.
  apply last_cons_default.
Qed.

(** What a leg contributes after the leg [prev]: all its points, or all
    but the first when that one repeats ([===] on both coordinates) the
    last point of [prev]. *)
Definition joint (prev leg : @Leg num) : list LatLon :=
  if (fst (final prev) <>? fst (first leg)) || (snd (final prev) <>? snd (first leg))
  then leg else tl leg.

Fixpoint joined (prev : @Leg num) (rest : list Leg) : list LatLon :=
  match rest with
  | [] => []
  | leg :: rest' => joint prev leg ++ joined leg rest'
  end.

Lemma final_app_joint (out prev leg : list (num * num)) :
  (2 <= length leg)%nat -> final (out ++ joint prev leg) = final leg.
Proof.
  intros Hlen. unfold joint. destruct (_ || _).
  - unfold final. apply last_app_nonempty. destruct leg; [cbn in Hlen; lia | discriminate].
  - now apply final_app_tl.
Qed.

Lemma connect_fold_joined (good : list (@Leg num)) (out : list LatLon) (prev : Leg) :
  Forall (fun leg => (2 <= length leg)%nat) good ->
  out <> [] -> final out = final prev ->
  fold_left connectStep good out = out ++ joined prev good.
Proof.
  intros Hgood. revert out prev.
  induction Hgood as [| leg rest Hleg _ IH]; intros out prev Hne Hfin; cbn [fold_left joined].
  - now rewrite app_nil_r.
  - assert (Hstep : connectStep out leg = out ++ joint prev leg).
    { unfold connectStep, joint.
      destruct (Nat.ltb_spec (length leg) 2) as [Hlt | _]; [lia |].
      destruct out as [| o out]; [congruence |]. cbn [length Nat.eqb].
      rewrite Hfin. destruct (_ || _); [| reflexivity].
      rewrite <- app_assoc. f_equal.
      destruct leg; [cbn in Hleg; lia | reflexivity]. }
    rewrite Hstep, (IH (out ++ joint prev leg) leg).
    + now rewrite <- app_assoc.
    + destruct out; [congruence | discriminate].
    + now apply final_app_joint.
Qed.

(** X3.  Stitching drops no point except a leg's first point at a joint
    and adds none.  The path is the first leg of at least 2 points in
    full, followed for each later such leg by all its points, or by all
    but its first point when that point is the last point of the leg
    before it.  So with [k] such legs of [n] points in all, the path has
    between [n - (k - 1)] and [n] points. *)
Theorem connectLegs_points (legs0 : list (@Leg num)) :
  let good := filter (fun leg => (2 <=? length leg)%nat) legs0 in
  let n := list_sum (map (@length _) good) in
  connectLegs legs0
  = match good with
    | [] => []
    | l0 :: rest => l0 ++ joined l0 rest
    end
  /\ (length (connectLegs legs0) <= n)%nat
  /\ (n <= length (connectLegs legs0) + (length good - 1))%nat.
Proof.
  cbv zeta. rewrite connectLegs_stitched. unfold stitched.
  pose proof (stitched_long legs0) as Hlong. unfold stitched in Hlong.
  match goal with
  | |- context [filter ?f legs0] => destruct (filter f legs0) as [| l0 rest]
  end; [cbn; repeat split; lia |].
  split.
  - cbn [fold_left]. inversion Hlong as [| ? ? Hl0 Hrest]; subst.
    assert (Hfirst : connectStep [] l0 = l0).
    { unfold connectStep. destruct (Nat.ltb_spec (length l0) 2); [lia | reflexivity]. }
    rewrite Hfirst. apply connect_fold_joined; [exact Hrest | | reflexivity].
    destruct l0; [cbn in Hl0; lia | discriminate].
  - destruct (connect_fold_long [] Hlong ltac:(discriminate))
      as (_ & _ & _ & Hup & Hlow).
    cbv zeta in Hup, Hlow. cbn [length Nat.eqb Nat.add] in Hup, Hlow.
    split; [exact Hup | exact Hlow].
Qed.

End Path.

End PathFacts.

(** ** More on segmentation *)

Module SegmenterFacts.

Import Js Geo App.
Local Open Scope js_scope.

Section Facts.
Context {num : Type} {N : Number num} {T : Turf num}.

Variables speed_mps turnTime_s budget_s : num.

(** The time a run of legs accumulates, summed as the loop does: from 0,
    each leg adding its flight time plus the turn overhead. *)
Definition legsTime (legs0 : list (@Leg num)) : num :=
  fold_left (fun acc leg => acc + (fst (legTimeAndDist speed_mps leg) + turnTime_s))
            legs0 (lit 0).

(** A segment carries the path, distance and time of its own legs. *)
Definition ofItsLegs (s : @Segment num) : Prop :=
  pathLatLon s = connectLegs (legs s)
  /\ distance_m s = turfLength (lineString (map swap (connectLegs (legs s)))) * lit 1000
  /\ time_s s = legsTime (legs s).

Lemma ofItsLegs_step (st : SegState) (leg : Leg) :
  Forall ofItsLegs (segs st) /\ timeAccum st = legsTime (current st) ->
  Forall ofItsLegs (segs (segStep speed_mps turnTime_s budget_s st leg))
  /\ timeAccum (segStep speed_mps turnTime_s budget_s st leg)
     = legsTime (current (segStep speed_mps turnTime_s budget_s st leg)).
Proof.
  intros [Hall Htime].
  pose proof (SegmenterSpec.segStep_cases speed_mps turnTime_s budget_s st leg) as H.
  destruct (legTimeAndDist speed_mps leg) as [t d] eqn:Hleg.
  destruct H as [(_ & _ & ->) | (_ & ->)]; cbn [segs current timeAccum]; split.
  - apply Forall_app. split; [exact Hall |].
    constructor; [| constructor].
    unfold ofItsLegs; cbn. repeat split. exact Htime.
  - unfold legsTime. cbn [fold_left]. now rewrite Hleg.
  - exact Hall.
  - unfold legsTime in *. rewrite fold_left_app. cbn [fold_left].
    rewrite Hleg. cbn [fst]. f_equal. exact Htime.
Qed.

(** The segment that was closed last, if any. *)
Fixpoint lastClosed (l : list (@Segment num)) : option Segment :=
  match l with
  | [] => None
  | a :: rest => match rest with [] => Some a | _ => lastClosed rest end
  end.

(** Segment [a] was closed because the first leg of [b] did not fit:
    the test [timeAccum + t + extraTurn > budget_s] held for it. *)
Definition closedFor (a : @Segment num) (l : Leg) : Prop :=
  (time_s a + fst (legTimeAndDist speed_mps l) + turnTime_s >? budget_s) = true.

Definition closedBefore (a b : @Segment num) : Prop :=
  match legs b with
  | l :: _ => closedFor a l
  | [] => False
  end.

Fixpoint chained (l : list (@Segment num)) : Prop :=
  match l with
  | a :: rest =>
      match rest with
      | b :: _ => closedBefore a b /\ chained rest
      | [] => True
      end
  | [] => True
  end.

Lemma lastClosed_snoc (l : list (@Segment num)) (c : Segment) :
  lastClosed (l ++ [c]) = Some c.
Proof.
  induction l as [| a l IH]; [reflexivity |].
  cbn [app lastClosed]. rewrite IH. now destruct (l ++ [c]) eqn:E; [destruct l |].
Qed.

Lemma chained_snoc (l : list (@Segment num)) (c : Segment) :
  chained l ->
  match lastClosed l with Some a => closedBefore a c | None => True end ->
  chained (l ++ [c]).
Proof.
  induction l as [| a l IH]; intros Hch Hlast; [exact I |].
  destruct l as [| b l].
  - cbn in *. split; [exact Hlast | exact I].
  - cbn [chained] in Hch. destruct Hch as [Hab Hch].
    change (chained (a :: (b :: l) ++ [c])).
    cbn [app chained]. split; [exact Hab |].
    apply IH; [exact Hch | exact Hlast].
Qed.

Lemma chained_split (pre post : list (@Segment num)) (a b : Segment) :
  chained (pre ++ a :: b :: post) -> closedBefore a b.
Proof.
  induction pre as [| p pre IH]; cbn [app].
  - cbn. tauto.
  - intros H. apply IH. destruct (pre ++ a :: b :: post) eqn:E.
    + destruct pre; discriminate.
    + cbn [chained] in H. tauto.
Qed.

(** Between two legs: the closed segments are chained, and the running
    segment starts with the leg that closed the last of them. *)
Definition greedyInv (st : @SegState num) : Prop :=
  chained (segs st)
  /\ match lastClosed (segs st) with
     | Some a => match current st with l :: _ => closedFor a l | [] => False end
     | None => True
     end.

Lemma greedy_close (st : SegState) :
  greedyInv st -> current st <> [] ->
  chained (segs st ++ [closeSegment (current st) (timeAccum st)]).
Proof.
  intros [Hch Hlast] Hne. apply chained_snoc; [exact Hch |].
  destruct (lastClosed (segs st)) as [a |]; [| exact I].
  unfold closedBefore. cbn [legs closeSegment].
  destruct (current st) as [| l rest]; [contradiction | exact Hlast].
Qed.

Lemma greedy_step (st : SegState) (leg : Leg) :
  greedyInv st -> greedyInv (segStep speed_mps turnTime_s budget_s st leg).
Proof.
  intros Hinv.
  pose proof (SegmenterSpec.segStep_cases speed_mps turnTime_s budget_s st leg) as H.
  destruct (legTimeAndDist speed_mps leg) as [t d] eqn:Hleg.
  destruct H as [(Hne & Hover & ->) | (_ & ->)]; unfold greedyInv; cbn [segs current].
  - split; [now apply greedy_close |].
    rewrite lastClosed_snoc. unfold closedFor. cbn [time_s closeSegment].
    now rewrite Hleg.
  - destruct Hinv as [Hch Hlast]. split; [exact Hch |].
    destruct (lastClosed (segs st)) as [a |]; [| exact I].
    destruct (current st) as [| l rest]; [contradiction | exact Hlast].
Qed.

(** Every leg of the run but the first passed the loop's test
    [timeAccum + t + extraTurn > budget_s] when it was added: the test was
    false against the time accumulated by the legs before it. *)
Definition tested (legs0 : list (@Leg num)) : Prop :=
  forall pre l post,
    legs0 = pre ++ l :: post -> pre <> [] ->
    (legsTime pre + fst (legTimeAndDist speed_mps l) + turnTime_s >? budget_s) = false.

Lemma tested_single (leg : @Leg num) : tested [leg].
Proof.
  intros pre l post Heq Hne. apply (f_equal (@length _)) in Heq.
  rewrite length_app in Heq. cbn [length] in Heq.
  destruct pre; [congruence | cbn [length] in Heq; lia].
Qed.

Lemma snoc_split {A : Type} (cur pre post : list A) (leg l : A) :
  cur ++ [leg] = pre ++ l :: post ->
  (post = [] /\ pre = cur /\ l = leg)
  \/ exists post', post = post' ++ [leg] /\ cur = pre ++ l :: post'.
Proof.
  intros Heq. destruct (exists_last (l := l :: post) ltac:(discriminate))
    as (body & z & Hlast).
  rewrite Hlast, app_assoc in Heq. apply app_inj_tail in Heq.
  destruct Heq as [-> <-].
  destruct body as [| b body].
  - left. cbn in Hlast. injection Hlast as -> ->. now rewrite app_nil_r.
  - right. cbn [app] in Hlast. injection Hlast as -> ->.
    exists body. split; reflexivity.
Qed.

Lemma tested_snoc (cur : list (@Leg num)) (leg : Leg) :
  tested cur ->
  (cur = []
   \/ (legsTime cur + fst (legTimeAndDist speed_mps leg) + turnTime_s >? budget_s) = false) ->
  tested (cur ++ [leg]).
Proof.
  intros Hcur Hfit pre l post Heq Hne.
  apply snoc_split in Heq. destruct Heq as [(-> & -> & ->) | (post' & -> & ->)].
  - destruct Hfit as [-> | Hfit]; [congruence | exact Hfit].
  - now apply (Hcur pre l post').
Qed.

(** Between two legs: the closed segments and the running one hold tested
    runs, each with the time of its legs. *)
Definition testedInv (st : @SegState num) : Prop :=
  Forall (fun s => tested (legs s) /\ time_s s = legsTime (legs s)) (segs st)
  /\ tested (current st)
  /\ timeAccum st = legsTime (current st).

Lemma tested_step (st : SegState) (leg : Leg) :
  testedInv st -> testedInv (segStep speed_mps turnTime_s budget_s st leg).
Proof.
  intros (Hall & Hcur & Htime).
  pose proof (SegmenterSpec.segStep_cases speed_mps turnTime_s budget_s st leg) as H.
  destruct (legTimeAndDist speed_mps leg) as [t d] eqn:Hleg.
  destruct H as [(_ & _ & ->) | (Hfit & ->)]; unfold testedInv;
    cbn [segs current timeAccum].
  - split; [| split].
    + apply Forall_app. split; [exact Hall |].
      constructor; [| constructor]. cbn [legs time_s closeSegment]. now split.
    + apply tested_single.
    + unfold legsTime. cbn [fold_left]. now rewrite Hleg.
  - split; [exact Hall |]. split.
    + apply tested_snoc; [exact Hcur |]. rewrite Hleg. cbn [fst].
      rewrite <- Htime. exact Hfit.
    + unfold legsTime in *. rewrite fold_left_app. cbn [fold_left].
      rewrite Hleg. cbn [fst]. f_equal. exact Htime.
Qed.

(** While every leg passes the test no segment is closed. *)
Lemma tested_fold (legs0 : list Leg) (st : SegState) :
  segs st = [] ->
  timeAccum st = legsTime (current st) ->
  tested (current st ++ legs0) ->
  segs (fold_left (segStep speed_mps turnTime_s budget_s) legs0 st) = []
  /\ current (fold_left (segStep speed_mps turnTime_s budget_s) legs0 st)
     = current st ++ legs0
  /\ timeAccum (fold_left (segStep speed_mps turnTime_s budget_s) legs0 st)
     = legsTime (current st ++ legs0).
Proof.
  revert st. induction legs0 as [| leg rest IH]; intros st Hsegs Htime Hfit;
    cbn [fold_left].
  - rewrite app_nil_r. auto.
  - pose proof (SegmenterSpec.segStep_cases speed_mps turnTime_s budget_s st leg) as H.
    destruct (legTimeAndDist speed_mps leg) as [t d] eqn:Hleg.
    destruct H as [(Hne & Hover & _) | (_ & Hstep)].
    + exfalso.
      specialize (Hfit (current st) leg rest eq_refl Hne).
      rewrite Hleg in Hfit. cbn [fst] in Hfit. rewrite <- Htime in Hfit. congruence.
    + rewrite Hstep.
      destruct (IH {| segs := segs st; current := current st ++ [leg];
                      timeAccum := timeAccum st + (t + turnTime_s);
                      distAccum := distAccum st + d |}) as (Hs & Hc & Ht).
      * exact Hsegs.
      * cbn [timeAccum current]. unfold legsTime in *.
        rewrite fold_left_app. cbn [fold_left]. rewrite Hleg. cbn [fst].
        f_equal. exact Htime.
      * cbn [current]. now rewrite <- app_assoc.
      * cbn [current] in Hc, Ht. rewrite <- app_assoc in Hc, Ht.
        split; [exact Hs |]. split; [exact Hc | exact Ht].
Qed.

End Facts.

Section Results.
Context {num : Type} {N : Number num} {T : Turf num}.

(** What [segmentByCap] returns, in terms of the state after the loop. *)
Lemma segmentByCap_final (legs0 : list Leg) (speed_mps turnTime_s cap_min : num) :
  let st := fold_left (segStep speed_mps turnTime_s (budgetOf cap_min)) legs0
              {| segs := []; current := []; timeAccum := lit 0; distAccum := lit 0 |} in
  (current st = [] /\ segmentByCap legs0 speed_mps turnTime_s cap_min = segs st)
  \/ (current st <> []
      /\ segmentByCap legs0 speed_mps turnTime_s cap_min
         = segs st ++ [closeSegment (current st) (timeAccum st)]).
Proof.
  cbv zeta. unfold segmentByCap.
  destruct (current (fold_left _ legs0 _)) as [| l rest] eqn:Hcur;
    cbn [length Nat.ltb Nat.leb].
  - left. now split.
  - right. split; [discriminate | reflexivity].
Qed.

(** X4.  Every segment returned by [segmentByCap] carries the data of its
    own legs: its path is the stitching of its legs, its distance the
    length of that path in metres, and its time the sum, leg by leg from
    0, of flight time plus turn overhead. *)
Theorem segmentByCap_of_its_legs (legs0 : list Leg) (speed_mps turnTime_s cap_min : num) :
  Forall (fun s =>
            pathLatLon s = connectLegs (legs s)
            /\ distance_m s
               = turfLength (lineString (map swap (connectLegs (legs s)))) * lit 1000
            /\ time_s s
               = fold_left (fun acc leg =>
                              acc + (fst (legTimeAndDist speed_mps leg) + turnTime_s))
                           (legs s) (lit 0))
         (segmentByCap legs0 speed_mps turnTime_s cap_min).
Proof.
  change (Forall (ofItsLegs speed_mps turnTime_s)
            (segmentByCap legs0 speed_mps turnTime_s cap_min)).
  set (st0 := {| segs := []; current := []; timeAccum := lit 0; distAccum := lit 0 |}).
  assert (Hst : Forall (ofItsLegs speed_mps turnTime_s)
                  (segs (fold_left (segStep speed_mps turnTime_s (budgetOf cap_min))
                                   legs0 st0))
                /\ timeAccum (fold_left (segStep speed_mps turnTime_s (budgetOf cap_min))
                                        legs0 st0)
                   = legsTime speed_mps turnTime_s
                       (current (fold_left (segStep speed_mps turnTime_s (budgetOf cap_min))
                                           legs0 st0))).
  { apply (SegmenterSpec.fold_left_preserves
             (fun st => Forall (ofItsLegs speed_mps turnTime_s) (segs st)
                        /\ timeAccum st = legsTime speed_mps turnTime_s (current st))).
    - intros st leg. apply ofItsLegs_step.
    - split; [constructor | reflexivity]. }
  destruct Hst as [Hall Htime].
  destruct (segmentByCap_final legs0 speed_mps turnTime_s cap_min)
    as [[_ ->] | [_ ->]]; [exact Hall |].
  apply Forall_app. split; [exact Hall |].
  constructor; [| constructor].
  unfold ofItsLegs; cbn. repeat split. exact Htime.
Qed.

Lemma length_le_concat {A : Type} (ls : list (list A)) :
  Forall (fun l => l <> []) ls -> (length ls <= length (concat ls))%nat.
Proof.
  induction 1 as [| l ls Hl _ IH]; cbn; [lia |].
  rewrite length_app. destruct l; [congruence | cbn; lia].
Qed.

(** The leg lists of the returned segments: none is empty, and together
    they are the input. *)
Lemma segmentByCap_parts (legs0 : list Leg) (speed_mps turnTime_s cap_min : num) :
  Forall (fun l : list Leg => l <> [])
         (map (@legs num) (segmentByCap legs0 speed_mps turnTime_s cap_min))
  /\ concat (map (@legs num) (segmentByCap legs0 speed_mps turnTime_s cap_min)) = legs0.
Proof.
  set (st0 := {| segs := []; current := []; timeAccum := lit 0; distAccum := lit 0 |}).
  pose proof (SegmenterSpec.consumed_fold speed_mps turnTime_s (budgetOf cap_min)
                legs0 st0) as Hcons.
  assert (Hne : Forall (fun s => @legs num s <> [])
                  (segs (fold_left (segStep speed_mps turnTime_s (budgetOf cap_min))
                                   legs0 st0))).
  { apply (SegmenterSpec.fold_left_preserves
             (fun st => Forall (fun s => @legs num s <> []) (segs st))).
    - intros st leg. apply SegmenterSpec.segments_nonempty_step.
    - constructor. }
  unfold SegmenterSpec.consumed in Hcons. cbn [segs current map concat app] in Hcons.
  destruct (segmentByCap_final legs0 speed_mps turnTime_s cap_min)
    as [[Hcur ->] | [Hcur ->]]; fold st0 in Hcur |- *.
  - rewrite Hcur, app_nil_r in Hcons. split; [| exact Hcons].
    apply Forall_map. exact Hne.
  - rewrite map_app, concat_app. cbn [map concat legs closeSegment].
    rewrite app_nil_r. split; [| exact Hcons].
    apply Forall_app. split; [apply Forall_map; exact Hne |].
    constructor; [exact Hcur | constructor].
Qed.

(** X5.  [segmentByCap] never returns more segments than it was given
    legs, and returns no segment exactly when it was given no leg. *)
Theorem segmentByCap_count (legs0 : list Leg) (speed_mps turnTime_s cap_min : num) :
  (length (segmentByCap legs0 speed_mps turnTime_s cap_min) <= length legs0)%nat
  /\ (segmentByCap legs0 speed_mps turnTime_s cap_min = [] <-> legs0 = []).
Proof.
  destruct (segmentByCap_parts legs0 speed_mps turnTime_s cap_min)
    as [Hnonempty Hconcat].
  split.
  - rewrite <- Hconcat at 2. rewrite <- (length_map (@legs num)).
    now apply length_le_concat.
  - split.
    + intros Hnil. rewrite Hnil in Hconcat. cbn in Hconcat. now symmetry.
    + intros ->. reflexivity.
Qed.

(** X6.  The segmentation is greedy: whenever segment [a] is followed by
    segment [b], [a] was closed because the first leg of [b] did not fit,
    that is [time_s a + legTime + turnTime > budget] for that leg. *)
Theorem segmentByCap_greedy (legs0 : list Leg) (speed_mps turnTime_s cap_min : num)
    (pre post : list Segment) (a b : Segment) :
  segmentByCap legs0 speed_mps turnTime_s cap_min = pre ++ a :: b :: post ->
  exists l rest,
    legs b = l :: rest
    /\ (time_s a + fst (legTimeAndDist speed_mps l) + turnTime_s
        >? nmax (lit 60) (cap_min * lit 60 - lit 60)) = true.
Proof.
  intros Hsplit.
  set (st0 := {| segs := []; current := []; timeAccum := lit 0; distAccum := lit 0 |}).
  assert (Hinv : greedyInv speed_mps turnTime_s (budgetOf cap_min)
                   (fold_left (segStep speed_mps turnTime_s (budgetOf cap_min))
                              legs0 st0)).
  { apply (SegmenterSpec.fold_left_preserves
             (greedyInv speed_mps turnTime_s (budgetOf cap_min))).
    - intros st leg. apply greedy_step.
    - split; exact I. }
  assert (Hch : chained speed_mps turnTime_s (budgetOf cap_min)
                  (segmentByCap legs0 speed_mps turnTime_s cap_min)).
  { destruct (segmentByCap_final legs0 speed_mps turnTime_s cap_min)
      as [[_ ->] | [Hcur ->]].
    - exact (proj1 Hinv).
    - now apply greedy_close. }
  rewrite Hsplit in Hch. apply chained_split in Hch.
  unfold closedBefore in Hch.
  destruct (legs b) as [| l rest]; [contradiction |].
  exists l, rest. split; [reflexivity | exact Hch].
Qed.

(** The returned segments hold tested runs, with the time of their
    legs. *)
Lemma segmentByCap_tested (legs0 : list Leg) (speed_mps turnTime_s cap_min : num) :
  Forall (fun s => tested speed_mps turnTime_s (budgetOf cap_min) (legs s)
                   /\ time_s s = legsTime speed_mps turnTime_s (legs s))
         (segmentByCap legs0 speed_mps turnTime_s cap_min).
Proof.
  set (st0 := {| segs := []; current := []; timeAccum := lit 0; distAccum := lit 0 |}).
  assert (Hinv : testedInv speed_mps turnTime_s (budgetOf cap_min)
                   (fold_left (segStep speed_mps turnTime_s (budgetOf cap_min))
                              legs0 st0)).
  { apply (SegmenterSpec.fold_left_preserves
             (testedInv speed_mps turnTime_s (budgetOf cap_min))).
    - intros st leg. apply tested_step.
    - split; [constructor |]. split; [| reflexivity].
      intros [| p pre] l post Heq Hne; [congruence | discriminate]. }
  destruct Hinv as (Hall & Hcur & Htime).
  destruct (segmentByCap_final legs0 speed_mps turnTime_s cap_min)
    as [[_ ->] | [_ ->]]; fold st0; [exact Hall |].
  apply Forall_app. split; [exact Hall |].
  constructor; [| constructor]. cbn [legs time_s closeSegment]. now split.
Qed.

(** X20.  The segmenter does not split exactly when every leg after the
    first passes the loop's test against the time of the legs before it,
    summed as the loop sums it: then, and only then, it returns the one
    segment that holds every leg, with the time of all of them.  Holds in
    every number model, binary64 included. *)
Theorem segmentByCap_single (legs0 : list Leg) (speed_mps turnTime_s cap_min : num) :
  let time := legsTime speed_mps turnTime_s in
  legs0 <> [] ->
  (forall pre leg post,
     legs0 = pre ++ leg :: post -> pre <> [] ->
     (time pre + fst (legTimeAndDist speed_mps leg) + turnTime_s
      >? nmax (lit 60) (cap_min * lit 60 - lit 60)) = false)
  <-> segmentByCap legs0 speed_mps turnTime_s cap_min = [closeSegment legs0 (time legs0)].
Proof.
  cbv zeta. intros Hne. split.
  - intros Hfit.
    set (st0 := {| segs := []; current := []; timeAccum := lit 0; distAccum := lit 0 |}).
    destruct (@tested_fold _ _ _ speed_mps turnTime_s (budgetOf cap_min) legs0 st0
                eq_refl eq_refl Hfit) as (Hsegs & Hcur & Htime).
    cbn [current st0 app] in Hcur, Htime.
    destruct (segmentByCap_final legs0 speed_mps turnTime_s cap_min)
      as [[Hnil _] | [_ ->]].
    + fold st0 in Hnil. rewrite Hcur in Hnil. contradiction.
    + fold st0. now rewrite Hsegs, Hcur, Htime.
  - intros Hone.
    pose proof (segmentByCap_tested legs0 speed_mps turnTime_s cap_min) as Hall.
    rewrite Hone in Hall. inversion Hall as [| s rest [Hs _] _]; subst.
    exact Hs.
Qed.

End Results.

End SegmenterFacts.

(** ** The budget of a segment *)

Module BudgetSpec.

Import Js Geo App.
Local Open Scope js_scope.

Section Budget.
Context {num : Type} {N : Number num} {T : Turf num}.

(** C4, amended.  For every leg list, speed, turn time and battery cap in
    minutes, with the budget [max(60, capMinutes*60 - 60)] seconds: every
    returned segment records the time of its legs, summed from 0 by
    adding [flight time + turn time] leg by leg; and every leg of a
    segment after its first passed the loop's test when it was added,
    that is [(time of the legs before it + flight time) + turn time >
    budget] was false.  The first leg of a segment is not tested, so a
    single leg over the budget is kept.  Where sums are exact and any two
    numbers compare, every segment therefore has [time_s <= budget] or
    exactly one leg; on binary64 the recorded and the tested sum may
    round differently. *)
Theorem segmentByCap_tested_budget (legs0 : list Leg) (speed_mps turnTime_s cap_min : num) :
  let budget := nmax (lit 60) (cap_min * lit 60 - lit 60) in
  let time := SegmenterFacts.legsTime speed_mps turnTime_s in
  Forall (fun s =>
            time_s s = time (legs s)
            /\ forall pre leg post,
                 legs s = pre ++ leg :: post -> pre <> [] ->
                 (time pre + fst (legTimeAndDist speed_mps leg) + turnTime_s
                  >? budget) = false)
         (segmentByCap legs0 speed_mps turnTime_s cap_min)
  /\ (forall (O : TotalOrder num) (E : ExactSum num),
        Forall (fun s => (time_s s <=? budget) = true \/ length (legs s) = 1%nat)
               (segmentByCap legs0 speed_mps turnTime_s cap_min)).
Proof.
  cbv zeta. split.
  - eapply Forall_impl;
      [| exact (SegmenterFacts.segmentByCap_tested legs0 speed_mps turnTime_s cap_min)].
    intros s [Htested Htime]. split; [exact Htime | exact Htested].
  - intros O E.
    apply (SegmenterSpec.segmentByCap_within_on_run legs0 speed_mps turnTime_s cap_min).
    apply SegmenterSpec.exactRun_exact; assumption.
Qed.

End Budget.

End BudgetSpec.

(** ** More on the inside-polygon grid builder *)

Module GridFacts.

Import Js Geo App.
Local Open Scope js_scope.

Section Kept.
Context {num : Type} {N : Number num} {T : Turf num}.

Lemma swap_swap (p : num * num) : swap (swap p) = p.
Proof. now destruct p. Qed.

(** A leg as the grid builder makes it: at least 2 points, and the
    midpoint of its two ends, taken in one order or the other, inside the
    polygon. *)
Definition keptLeg (poly : Polygon num) (leg : Leg) : Prop :=
  (2 <= length leg)%nat
  /\ (booleanPointInPolygon (midpoint (swap (first leg)) (swap (final leg))) poly = true
      \/ booleanPointInPolygon (midpoint (swap (final leg)) (swap (first leg))) poly
         = true).

Lemma pushPiece_kept (poly : Polygon num) (legs0 : list Leg) (seg : LineFeature num) :
  Forall (keptLeg poly) legs0 -> Forall (keptLeg poly) (pushPiece poly legs0 seg).
Proof.
  intros Hall. unfold pushPiece.
  destruct (geometry seg) as [coords |]; [| exact Hall].
  destruct (Nat.ltb_spec (length coords) 2) as [_ | Hlen]; [exact Hall |].
  destruct (booleanPointInPolygon _ poly) eqn:Hin; [| exact Hall].
  apply Forall_app. split; [exact Hall |].
  constructor; [| constructor].
  assert (Hne : map swap coords <> []) by (destruct coords; [cbn in Hlen; lia | discriminate]).
  destruct (length legs0 mod 2 =? 0)%nat; unfold keptLeg.
  - rewrite length_map. split; [exact Hlen |]. left.
    now rewrite OrientSpec.first_swap, OrientSpec.final_swap, !swap_swap.
  - rewrite length_rev, length_map. split; [exact Hlen |]. right.
    rewrite OrientSpec.first_rev, OrientSpec.final_rev by exact Hne.
    now rewrite OrientSpec.first_swap, OrientSpec.final_swap, !swap_swap.
Qed.

Lemma gridLoop_kept (fuel : nat) (poly : Polygon num) (baseLine : LineFeature num)
    (spacing_m ortho halfSteps i : num) (legs0 legs1 : list Leg) :
  Forall (keptLeg poly) legs0 ->
  gridLoop fuel poly baseLine spacing_m ortho halfSteps i legs0 = Some legs1 ->
  Forall (keptLeg poly) legs1.
Proof.
  revert i legs0. induction fuel as [| fuel IH]; intros i legs0 Hall; cbn [gridLoop].
  - discriminate.
  - destruct (i <=? halfSteps).
    + apply IH.
      apply (SegmenterSpec.fold_left_preserves (Forall (keptLeg poly))); [| exact Hall].
      intros acc seg. apply pushPiece_kept.
    + now intros [= <-].
Qed.

(** More fuel does not change what the loop returns. *)
Lemma gridLoop_more_fuel (fuel : nat) (poly : Polygon num) (baseLine : LineFeature num)
    (spacing_m ortho halfSteps i : num) (legs0 legs1 : list Leg) :
  gridLoop fuel poly baseLine spacing_m ortho halfSteps i legs0 = Some legs1 ->
  forall more : nat,
    gridLoop (fuel + more) poly baseLine spacing_m ortho halfSteps i legs0 = Some legs1.
Proof.
  revert i legs0. induction fuel as [| fuel IH]; intros i legs0; cbn [gridLoop Nat.add].
  - discriminate.
  - destruct (i <=? halfSteps); [| now intros H more].
    intros H more. now apply IH.
Qed.

(** X7.  Every leg the grid builder returns has at least 2 points and
    passed the midpoint test: the midpoint of its two end points lies
    inside the polygon.  So leg stitching skips none of them. *)
Theorem buildGrid_legs_kept (fuel : nat) (poly : Polygon num)
    (headingDeg spacing_m : num) (legs0 : list Leg) :
  buildGridInsidePolygon fuel poly headingDeg spacing_m = Some legs0 ->
  Forall (fun leg =>
            (2 <= length leg)%nat
            /\ (booleanPointInPolygon
                  (midpoint (swap (first leg)) (swap (final leg))) poly = true
                \/ booleanPointInPolygon
                     (midpoint (swap (final leg)) (swap (first leg))) poly = true))
         legs0
  /\ filter (fun leg => (2 <=? length leg)%nat) legs0 = legs0.
Proof.
  unfold buildGridInsidePolygon. intros Hrun.
  assert (Hall : Forall (keptLeg poly) legs0).
  { eapply gridLoop_kept; [| exact Hrun]. constructor. }
  split; [exact Hall |].
  clear Hrun. induction Hall as [| leg rest [Hlen _] _ IH]; [reflexivity |].
  cbn [filter]. destruct (Nat.leb_spec 2 (length leg)); [| lia].
  now rewrite IH.
Qed.

End Kept.

Section Terminates.
Context {num : Type} {N : Number num} {T : Turf num}.
Import CountFacts.

(** Once the counter is the whole number [z], [H + 1 - z] more passes
    reach the end of the loop. *)
Lemma gridLoop_counted (H : Z) (n : nat) (poly : Polygon num) (baseLine : LineFeature num)
    (spacing_m ortho : num) (z : Z) (legs0 : list Leg) :
  countsTo H -> (- H < z <= H + 1)%Z -> (H + 1 - z <= Z.of_nat n)%Z ->
  exists legs1,
    gridLoop (S n) poly baseLine spacing_m ortho (lit H) (lit z) legs0 = Some legs1.
Proof.
  intros (_ & _ & Hcount). revert z legs0.
  induction n as [| n IH]; intros z legs0 Hz Hn; cbn [gridLoop];
    destruct (Hcount z Hz) as [Hsucc ->];
    (destruct (Z.leb_spec z H) as [Hle | Hgt]; [| eauto]).
  - lia.
  - rewrite Hsucc. apply IH; lia.
Qed.

(** X8.  In every number model, for every geometry, polygon, heading and
    spacing: when the step count [halfSteps = Math.ceil(cover_m / (2 *
    spacing_m))] is the whole number [H] and the numbers count to [H],
    the grid builder returns, after at most [2 * H + 2] evaluations of
    its loop test (one when [H] is negative).  The rationals count to
    every [H] ([CountFacts.countsTo_exact]), binary64 to every [H] up to
    [CountFacts.wholeBound] at least ([CountFacts.countsTo_binary64]). *)
Theorem buildGrid_terminates_counted (poly : Polygon num) (headingDeg spacing_m : num)
    (H : Z) :
  gridHalfSteps poly spacing_m = lit H ->
  countsTo H ->
  exists legs0,
    forall more : nat,
      buildGridInsidePolygon (S (Z.to_nat (2 * H + 1)) + more) poly headingDeg spacing_m
      = Some legs0.
Proof.
  intros Hh Hcount. unfold buildGridInsidePolygon. rewrite Hh.
  set (baseLine := gridBaseLine poly headingDeg).
  set (ortho := (headingDeg + lit 90) mod lit 360).
  assert (Hrun : exists legs0,
             gridLoop (S (Z.to_nat (2 * H + 1))) poly baseLine spacing_m ortho
               (lit H) (- lit H) [] = Some legs0).
  { pose proof Hcount as (Hfirst & Hstart & _).
    cbn [gridLoop]. rewrite Hfirst.
    destruct (Z.leb_spec 0 H) as [Hpos | Hneg]; [| eauto].
    rewrite (Hstart Hpos).
    replace (Z.to_nat (2 * H + 1)) with (S (Z.to_nat (2 * H))) by lia.
    apply gridLoop_counted; [exact Hcount | lia | lia]. }
  destruct Hrun as [legs0 Hrun]. exists legs0. intros more.
  now apply gridLoop_more_fuel.
Qed.

End Terminates.

End GridFacts.

(** ** The parametric grid builder of qgc.ts *)

Module LineGridFacts.

Import Js Geo Qgc.
Local Open Scope js_scope.

Section Lines.
Context {num : Type} {N : Number num} {T : Turf num}.

(** The value of the loop counter at pass [k]: [0], then [i++] each
    time. *)
Fixpoint counter (k : nat) : num :=
  match k with
  | O => lit 0
  | S k' => counter k' + lit 1
  end.

Lemma gridLine_two (params : GridParams num) (i : num) :
  length (gridLine params i) = 2%nat.
Proof.
  unfold gridLine. destruct (lineEnds params i) as [offsetStart fwd].
  now destruct ((i mod lit 2) =? lit 0).
Qed.

(** The loop from pass [k0]: it appends the lines of passes [k0], ...,
    [k0 + m - 1] and stops at the first pass whose counter is not below
    [lineCount]. *)
Lemma buildGridLoop_passes (fuel : nat) (params : GridParams num) (k0 : nat)
    (lines0 lines1 : list (list (num * num))) :
  buildGridLoop fuel params (counter k0) lines0 = Some lines1 ->
  exists m,
    lines1 = lines0 ++ map (fun k => gridLine params (counter k)) (seq k0 m)
    /\ (counter (k0 + m) <? lineCount params) = false
    /\ forall j, (j < m)%nat -> (counter (k0 + j) <? lineCount params) = true.
Proof.
  revert k0 lines0. induction fuel as [| fuel IH]; intros k0 lines0;
    cbn [buildGridLoop]; [discriminate |].
  destruct (counter k0 <? lineCount params) eqn:Htest.
  - intros Hrun. apply (IH (S k0)) in Hrun. destruct Hrun as (m & -> & Hstop & Hgo).
    exists (S m). split; [| split].
    + cbn [seq map]. now rewrite <- app_assoc.
    + now rewrite Nat.add_succ_r.
    + intros [| j] Hj; [now rewrite Nat.add_0_r |].
      rewrite Nat.add_succ_r. apply (Hgo j). lia.
  - intros [= <-]. exists 0%nat. split; [| split].
    + cbn. now rewrite app_nil_r.
    + now rewrite Nat.add_0_r.
    + intros j Hj. lia.
Qed.

(** X9.  Whatever [buildGrid] returns is a list of two-point lines, the
    line at position [k] being the one built for counter value
    [0 + 1 + ... + 1] ([k] times): as many lines as there are counter
    values below [lineCount] before the first that is not. *)
Theorem buildGrid_lines (fuel : nat) (params : GridParams num)
    (lines : list (list (num * num))) :
  buildGrid fuel params = Some lines ->
  lines = map (fun k => gridLine params (counter k)) (seq 0 (length lines))
  /\ Forall (fun line => length line = 2%nat) lines
  /\ (counter (length lines) <? lineCount params) = false
  /\ (forall k, (k < length lines)%nat -> (counter k <? lineCount params) = true).
Proof.
  unfold buildGrid. intros Hrun.
  apply (buildGridLoop_passes fuel params 0 []) in Hrun.
  destruct Hrun as (m & -> & Hstop & Hgo). cbn [app Nat.add] in *.
  rewrite length_map, length_seq.
  split; [reflexivity |]. split; [| split; [exact Hstop | exact Hgo]].
  apply Forall_forall. intros line Hin. apply in_map_iff in Hin.
  destruct Hin as (k & <- & _). apply gridLine_two.
Qed.

End Lines.

Section WholeCount.
Context {num : Type} {N : Number num} {T : Turf num}.
Import CountFacts.

Lemma even_of_nat (k : nat) : Z.even (Z.of_nat k) = Nat.even k.
Proof.
  rewrite Zeven_mod, <- GridSpec.mod2_even.
  change 2%Z with (Z.of_nat 2). rewrite <- Nat2Z.inj_mod.
  destruct (Nat.eqb_spec (k mod 2) 0), (Z.eqb_spec (Z.of_nat (k mod 2)) 0);
    try reflexivity; lia.
Qed.

(** X10.  In every number model, for a whole [lineCount = n >= 0] to
    which the numbers count: [buildGrid] returns after [n + 1] loop tests
    with exactly [n] lines; line [k] starts from the offset [k *
    spacing_m] across track and runs forward (start, then end) for even
    [k], backward for odd [k], each point written [[lat, lon]].  The
    rationals count to every [n] ([CountFacts.countsBelow_exact]),
    binary64 to every [n] up to [CountFacts.wholeBound] at least
    ([CountFacts.countsBelow_binary64]). *)
Theorem buildGrid_whole_count (n : nat) (params : GridParams num) :
  lineCount params = lit (Z.of_nat n) ->
  countsBelow (Z.of_nat n) ->
  buildGrid (S n) params
  = Some (map (fun k =>
                 let '(offsetStart, fwd) := lineEnds params (lit (Z.of_nat k)) in
                 if Nat.even k
                 then [(snd offsetStart, fst offsetStart); (snd fwd, fst fwd)]
                 else [(snd fwd, fst fwd); (snd offsetStart, fst offsetStart)])
              (seq 0 n)).
Proof.
  intros Hcount Hwhole. unfold buildGrid.
  assert (Hloop : forall m k0 lines0,
             (k0 + m = n)%nat ->
             buildGridLoop (S m) params (lit (Z.of_nat k0)) lines0
             = Some (lines0 ++ map (fun k => gridLine params (lit (Z.of_nat k))) (seq k0 m))).
  { assert (Hstep : forall fuel k0 lines0,
               (k0 <= n)%nat ->
               buildGridLoop (S fuel) params (lit (Z.of_nat k0)) lines0
               = if (k0 <? n)%nat
                 then buildGridLoop fuel params (lit (Z.of_nat (S k0)))
                        (lines0 ++ [gridLine params (lit (Z.of_nat k0))])
                 else Some lines0).
    { intros fuel k0 lines0 Hk. cbn [buildGridLoop].
      destruct (Hwhole (Z.of_nat k0) ltac:(lia)) as (Hsucc & Hlt & _).
      rewrite Hcount, Hlt, Hsucc.
      replace (Z.of_nat k0 + 1)%Z with (Z.of_nat (S k0)) by lia.
      destruct (Z.ltb_spec (Z.of_nat k0) (Z.of_nat n)), (Nat.ltb_spec k0 n);
        try reflexivity; lia. }
    induction m as [| m IH]; intros k0 lines0 Hsum; rewrite Hstep by lia.
    - destruct (Nat.ltb_spec k0 n); [lia |]. cbn. now rewrite app_nil_r.
    - destruct (Nat.ltb_spec k0 n); [| lia].
      rewrite IH by lia. cbn [seq map]. now rewrite <- app_assoc. }
  change 0%Z with (Z.of_nat 0).
  rewrite (Hloop n 0%nat []) by lia. cbn [app]. f_equal.
  apply map_ext_in. intros k Hin. apply in_seq in Hin.
  destruct (Hwhole (Z.of_nat k) ltac:(lia)) as (_ & _ & Hpar).
  unfold gridLine.
  destruct (lineEnds params (lit (Z.of_nat k))) as [offsetStart fwd].
  rewrite Hpar, even_of_nat. now destruct (Nat.even k).
Qed.
End WholeCount.

End LineGridFacts.

(** ** Transit legs, metrics and the segment list of the component *)

Module MetricFacts.

Import Js Geo App.
Local Open Scope js_scope.

Section Route.
Context {num : Type} {N : Number num} {T : Turf num}.

Lemma orientedPath_cases (raw : list LatLon) (home : LatLon) :
  ((length raw < 2)%nat /\ orientedPathLonLat raw home = [])
  \/ ((2 <= length raw)%nat
      /\ (orientedPathLonLat raw home = map swap raw
          \/ orientedPathLonLat raw home = rev (map swap raw))).
Proof.
  unfold orientedPathLonLat.
  destruct (Nat.ltb_spec (length raw) 2) as [Hlt | Hge]; [now left |].
  right. split; [exact Hge |].
  destruct (_ <=? _); [now left | now right].
Qed.

(** X11.  The route from home and back.  When no leg has 2 points the
    stitched path, the oriented path and both transit legs are empty.
    Otherwise the oriented path has the points of the stitched path, as
    [[lon, lat]], in the same or the opposite order; the entry leg runs
    from home to its first point and the return leg from its last point
    to home. *)
Theorem transit_legs (legs0 : list Leg) (home : LatLon) :
  let raw := rawPathLatLon legs0 in
  let oriented := orientedPathLonLat raw home in
  (Forall (fun leg => (length leg < 2)%nat) legs0
   /\ raw = [] /\ oriented = []
   /\ entryCoords oriented home = [] /\ returnCoords oriented home = [])
  \/ ((2 <= length raw)%nat
      /\ (oriented = map swap raw \/ oriented = rev (map swap raw))
      /\ entryCoords oriented home = [swap home; first oriented]
      /\ returnCoords oriented home = [final oriented; swap home]).
Proof.
  cbv zeta. unfold rawPathLatLon.
  pose proof (PathFacts.stitched_nil legs0) as Hnil.
  pose proof (PathFacts.stitched_long legs0) as Hlong.
  rewrite PathFacts.connectLegs_stitched.
  destruct (PathFacts.stitched legs0) as [| l0 rest] eqn:Hgood.
  - left. cbn [fold_left]. split; [now apply Hnil |]. repeat split.
  - right.
    destruct (PathFacts.connect_fold_long [] Hlong ltac:(discriminate))
      as (_ & _ & Hlen & _). cbv zeta in Hlen.
    set (raw := fold_left connectStep (l0 :: rest) []) in *.
    destruct (orientedPath_cases raw home) as [[Hlt _] | [_ Hor]]; [lia |].
    split; [exact Hlen |]. split; [exact Hor |].
    assert (Hol : (2 <= length (orientedPathLonLat raw home))%nat).
    { destruct Hor as [-> | ->]; rewrite ?length_rev, length_map; exact Hlen. }
    unfold entryCoords, returnCoords.
    destruct (Nat.ltb_spec (length (orientedPathLonLat raw home)) 2); [lia |].
    split; reflexivity.
Qed.

(** X12.  Orientation does not depend on the direction the stitched path
    was given in: when the two ends are at different distances from home
    (and the distances compare), the path and its reverse are oriented
    to the same result. *)
Theorem orientedPath_reverse (raw : list LatLon) (home : LatLon) :
  let dFirst := turfDistance (swap home) (swap (first raw)) in
  let dLast := turfDistance (swap home) (swap (final raw)) in
  (2 <= length raw)%nat ->
  comparable dFirst dLast ->
  comparable dLast dFirst ->
  (dFirst <? dLast) = true \/ (dLast <? dFirst) = true ->
  orientedPathLonLat (rev raw) home = orientedPathLonLat raw home.
Proof.
  cbv zeta. intros Hlen [Hfl Hfl'] [Hlf Hlf'] Hstrict.
  assert (Hne : raw <> []) by (destruct raw; [cbn in Hlen; lia | discriminate]).
  unfold orientedPathLonLat. unfold LatLon in *. rewrite length_rev.
  destruct (Nat.ltb_spec (length raw) 2) as [Hlt | _]; [lia |].
  rewrite !OrientSpec.first_swap, !OrientSpec.final_swap.
  rewrite OrientSpec.first_rev, OrientSpec.final_rev by exact Hne.
  change (snd home, fst home) with (swap home).
  set (dFirst := turfDistance (swap home) (swap (first raw))) in *.
  set (dLast := turfDistance (swap home) (swap (final raw))) in *.
  destruct Hstrict as [Hlt | Hlt].
  - rewrite Hlt in Hlf. cbn [negb] in Hlf. rewrite Hlf, (Hlf' Hlt).
    now rewrite map_rev, rev_involutive.
  - rewrite Hlt in Hfl. cbn [negb] in Hfl. rewrite Hfl, (Hfl' Hlt).
    now rewrite map_rev.
Qed.

(** X13.  The segment list shown by the component always carries exactly
    the planned legs, in order, whether or not segmentation is on; and it
    is empty only when segmentation is on and there is no leg (with
    segmentation off it is one segment, even an empty one). *)
Theorem segments_carry_legs (autoSegment : bool) (allLegs0 : list Leg)
    (raw : list LatLon) (main est groundspeed turnTime batteryCap : num) :
  let segs0 := segments autoSegment allLegs0 raw main est groundspeed turnTime batteryCap in
  concat (map (@legs num) segs0) = allLegs0
  /\ (segs0 = [] <-> autoSegment = true /\ allLegs0 = [])
  /\ (autoSegment = false -> length segs0 = 1%nat).
Proof.
  cbv zeta. unfold segments.
  destruct autoSegment; cbn [negb].
  - destruct (SegmenterFacts.segmentByCap_parts allLegs0 groundspeed turnTime batteryCap)
      as [_ Hconcat].
    split; [exact Hconcat |]. split; [| discriminate].
    split.
    + intros Hnil. rewrite Hnil in Hconcat. cbn in Hconcat. now split.
    + intros [_ ->]. reflexivity.
  - cbn. rewrite app_nil_r. split; [reflexivity |].
    split; [| reflexivity].
    split; [discriminate | intros [Hf _]; discriminate].
Qed.

End Route.

Section NoLegs.
Context {T : Turf float}.
Import Float64.

(** X14.  On binary64, when no leg has 2 points (in particular with no
    legs at all) every derived metric is zero, whatever the spacing,
    speed, turn time and battery cap, NaN included: main path, transit
    and total distance, estimated time and photo count. *)
Theorem no_legs_zero_metrics (legs0 : list Leg) (home : LatLon)
    (along_m groundspeed turnTime batteryCap : float) (autoSegment : bool) :
  Forall (fun leg => (length leg < 2)%nat) legs0 ->
  let d := derive legs0 home along_m groundspeed turnTime batteryCap autoSegment in
  d_orientedPath d = []
  /\ d_mainPathDistance_m d = 0%float
  /\ d_entryReturnDistance_m d = 0%float
  /\ d_totalDistance_m d = 0%float
  /\ d_estTime_min d = 0%float
  /\ d_photoCount d = 0%float.
Proof.
  intros Hshort. cbv zeta.
  assert (Hraw : rawPathLatLon legs0 = []).
  { unfold rawPathLatLon. rewrite PathFacts.connectLegs_stitched.
    now rewrite (proj2 (PathFacts.stitched_nil legs0) Hshort). }
  unfold derive. rewrite Hraw. cbn [d_orientedPath d_mainPathDistance_m
    d_entryReturnDistance_m d_totalDistance_m d_estTime_min d_photoCount].
  change (orientedPathLonLat [] home) with (@nil (float * float)).
  change (entryCoords [] home) with (@nil (float * float)).
  change (returnCoords [] home) with (@nil (float * float)).
  change (mainPathDistance_m (@nil (float * float))) with 0%float.
  change (entryReturnDistance_m (@nil (float * float)) (@nil (float * float)))
    with 0%float.
  change (totalDistance_m 0%float 0%float) with 0%float.
  unfold estTime_min, photoCount.
  change (0%float <=? lit 0)%js with true.
  rewrite !orb_true_r. repeat split.
Qed.

End NoLegs.

Section Signs.
Context {num : Type} {N : Number num} {S : SignFacts.SignLaws num}.
Import SignFacts.

(** X15.  The photo count is never negative, whatever the distance and
    the trigger spacing (negative, zero, infinite or NaN): it is 0 when
    either is [<= 0], and otherwise the ceiling of a quotient that is not
    negative.  Holds of binary64 and of the rationals. *)
Theorem photoCount_notNegative (main along : num) :
  (photoCount main along <? lit 0) = false
  /\ ((along <=? lit 0) = true \/ (main <=? lit 0) = true ->
      photoCount main along = lit 0).
Proof.
  unfold photoCount. split.
  - destruct (along <=? lit 0) eqn:Ha; cbn [orb]; [apply zero_notNegative |].
    destruct (main <=? lit 0) eqn:Hm; [apply zero_notNegative |].
    apply ceil_notNegative, div_notNegative; [| exact Ha].
    now apply above_notNegative.
  - intros [-> | ->]; [reflexivity | now rewrite orb_true_r].
Qed.

(** X17.  The estimated time is never negative when the turn time is not
    ([turnTime < 0] is false, as it also is of NaN), whatever the total
    distance, the speed and the number of legs; and it is 0 when the
    speed or the total distance is [<= 0].  Holds of binary64 and of the
    rationals. *)
Theorem estTime_notNegative (total groundspeed turnTime : num) (allLegs0 : list Leg) :
  ((turnTime <? lit 0) = false ->
   (estTime_min total groundspeed allLegs0 turnTime <? lit 0) = false)
  /\ ((groundspeed <=? lit 0) = true \/ (total <=? lit 0) = true ->
      estTime_min total groundspeed allLegs0 turnTime = lit 0).
Proof.
  unfold estTime_min. split.
  - intros Hturn.
    destruct (groundspeed <=? lit 0) eqn:Hg; cbn [orb]; [apply zero_notNegative |].
    destruct (total <=? lit 0) eqn:Ht; [apply zero_notNegative |].
    apply div_notNegative; [| apply sixty_aboveZero].
    apply add_notNegative.
    + apply div_notNegative; [now apply above_notNegative | exact Hg].
    + apply mul_notNegative; [apply max_notNegative | exact Hturn].
  - intros [-> | ->]; [reflexivity | now rewrite orb_true_r].
Qed.

End Signs.

End MetricFacts.

(** ** Ground sample distance *)

Module GsdFacts.

Import Js Qgc.
Local Open Scope js_scope.

(** A camera with its pixel pitch replaced. *)
Definition withPitch {num : Type} (cam : Camera num) (pitch : option num) : Camera num :=
  {| name := name cam;
     sensorWidth_mm := sensorWidth_mm cam;
     sensorHeight_mm := sensorHeight_mm cam;
     focalLength_mm := focalLength_mm cam;
     imageWidth_px := imageWidth_px cam;
     imageHeight_px := imageHeight_px cam;
     pixelPitch_um := pitch |}.

(** X18.  On binary64 a pixel pitch of 0, -0 or NaN counts as no pixel
    pitch: the GSD is then computed from the sensor width and the image
    width, as for a camera without the field. *)
Theorem gsd_falsy_pitch (heightAGL_m : float) (cam : Camera float) :
  let fromSensor := gsdCmPerPx (N := Float64.Number_float) heightAGL_m (withPitch cam None) in
  gsdCmPerPx (N := Float64.Number_float) heightAGL_m (withPitch cam (Some 0%float))
  = fromSensor
  /\ gsdCmPerPx (N := Float64.Number_float) heightAGL_m (withPitch cam (Some (-0)%float))
     = fromSensor
  /\ gsdCmPerPx (N := Float64.Number_float) heightAGL_m (withPitch cam (Some nan))
     = fromSensor.
Proof.
  cbv zeta. unfold gsdCmPerPx. cbn [pixelPitch_um withPitch].
  change (truthyNumber (N := Float64.Number_float) 0%float) with false.
  change (truthyNumber (N := Float64.Number_float) (-0)%float) with false.
  change (truthyNumber (N := Float64.Number_float) nan) with false.
  repeat split.
Qed.

End GsdFacts.

(** ** More concrete runs *)

Module MoreRuns.

Import Js Geo Qgc App TestGeometry Float64 Exact.
Local Open Scope js_scope.

Definition twoLines : GridParams float :=
  {| startLat := 0; startLon := 0; headingDeg := 0;
     lineCount := 2; lineLength_m := 250; spacing_m := 125 |}%float.

Definition emptySegment : @Segment float :=
  closeSegment (T := flat) [] 0%float.

(** Three 1 km legs under a 6 minute cap: two segments, the first closed
    because the third leg would bring it to 384 s, over 300 s. *)
Lemma segmentByCap_greedy_witness :
  let segs0 := segmentByCap (T := flat) Runs.kmLegs 8%float 3%float 6%float in
  let a := nth 0 segs0 emptySegment in
  let b := nth 1 segs0 emptySegment in
  segs0 = [] ++ a :: b :: []
  /\ exists l rest,
       legs b = l :: rest
       /\ (time_s a + fst (legTimeAndDist (T := flat) 8%float l) + 3%float
           >? nmax (lit 60) (6%float * lit 60 - lit 60)) = true.
Proof.
  cbv zeta. split; [vm_compute; reflexivity |].
  apply (SegmenterFacts.segmentByCap_greedy (T := flat) Runs.kmLegs 8%float 3%float
           6%float [] []).
  vm_compute. reflexivity.
Defined.

Lemma buildGrid_legs_kept_witness :
  buildGridInsidePolygon (T := flat) 10 square 0%float 187.5%float = Some Runs.primaryLegs
  /\ Forall (fun leg =>
               (2 <= length leg)%nat
               /\ (booleanPointInPolygon (Turf := flat)
                     (midpoint (Turf := flat) (swap (first leg)) (swap (final leg)))
                     square = true
                   \/ booleanPointInPolygon (Turf := flat)
                        (midpoint (Turf := flat) (swap (final leg)) (swap (first leg)))
                        square = true))
            Runs.primaryLegs
  /\ filter (fun leg => (2 <=? length leg)%nat) Runs.primaryLegs = Runs.primaryLegs.
Proof.
  split; [vm_compute; reflexivity |].
  apply (GridFacts.buildGrid_legs_kept (T := flat) 10 square 0%float 187.5%float).
  vm_compute. reflexivity.
Defined.

(** The 500 m square at 187.5 m spacing on binary64: 4 offsets on each
    side of the baseline. *)
Lemma buildGrid_terminates_counted_witness :
  gridHalfSteps (T := flat) square 187.5%float = lit 4
  /\ exists legs0,
       forall more : nat,
         buildGridInsidePolygon (T := flat) (S (Z.to_nat (2 * 4 + 1)) + more)
           square 0%float 187.5%float = Some legs0.
Proof.
  split; [vm_compute; reflexivity |].
  apply (@GridFacts.buildGrid_terminates_counted float Number_float flat
           square 0%float 187.5%float 4%Z).
  - vm_compute. reflexivity.
  - apply CountFacts.countsTo_binary64. unfold CountFacts.wholeBound. lia.
Defined.

Lemma buildGrid_lines_witness :
  let lines :=
    [ [(0, 0); (0.25, 0)]; [(0.25, 0.125); (0, 0.125)] ]%float in
  buildGrid (T := flat) 3 twoLines = Some lines
  /\ lines = map (fun k => gridLine (T := flat) twoLines (LineGridFacts.counter k))
                 (seq 0 (length lines))
  /\ Forall (fun line => length line = 2%nat) lines
  /\ (LineGridFacts.counter (length lines) <? lineCount twoLines) = false
  /\ (forall k, (k < length lines)%nat ->
        (LineGridFacts.counter k <? lineCount twoLines) = true).
Proof.
  cbv zeta. split; [vm_compute; reflexivity |].
  apply (LineGridFacts.buildGrid_lines (T := flat) 3 twoLines).
  vm_compute. reflexivity.
Defined.

(** Two lines of 250 m, 125 m apart, on binary64. *)
Lemma buildGrid_whole_count_witness :
  lineCount twoLines = lit (Z.of_nat 2)
  /\ buildGrid (T := flat) 3 twoLines
     = Some (map (fun k =>
                    let '(offsetStart, fwd) :=
                      lineEnds (T := flat) twoLines (lit (Z.of_nat k)) in
                    if Nat.even k
                    then [(snd offsetStart, fst offsetStart); (snd fwd, fst fwd)]
                    else [(snd fwd, fst fwd); (snd offsetStart, fst offsetStart)])
                 (seq 0 2)).
Proof.
  split; [vm_compute; reflexivity |].
  apply (@LineGridFacts.buildGrid_whole_count float Number_float flat 2%nat twoLines).
  - vm_compute. reflexivity.
  - apply CountFacts.countsBelow_binary64. unfold CountFacts.wholeBound. cbn. lia.
Defined.

(** A two-point path, given in either direction. *)
Lemma orientedPath_reverse_witness :
  let raw : list (@LatLon float) := [(0, 0); (1, 1)]%float in
  let home : @LatLon float := (1, 1)%float in
  (2 <= length raw)%nat
  /\ orientedPathLonLat (T := flat) (rev raw) home = orientedPathLonLat (T := flat) raw home.
Proof.
  cbv zeta. split; [cbn; lia |].
  apply (MetricFacts.orientedPath_reverse (T := flat) [(0, 0); (1, 1)]%float (1, 1)%float).
  - cbn. lia.
  - split; [vm_compute; reflexivity | intros _; vm_compute; reflexivity].
  - split; [vm_compute; reflexivity | intros H; vm_compute in H; discriminate].
  - right. vm_compute. reflexivity.
Defined.

(** A single one-point leg. *)
Lemma no_legs_zero_metrics_witness :
  let legs0 : list (@Leg float) := [[(0.25, 0.25)]]%float in
  let d := derive (T := flat) legs0 (0, 0)%float nan 8%float 3%float 25%float false in
  Forall (fun leg => (length leg < 2)%nat) legs0
  /\ d_orientedPath d = []
  /\ d_mainPathDistance_m d = 0%float
  /\ d_entryReturnDistance_m d = 0%float
  /\ d_totalDistance_m d = 0%float
  /\ d_estTime_min d = 0%float
  /\ d_photoCount d = 0%float.
Proof.
  cbv zeta.
  assert (Hshort : Forall (fun leg : @Leg float => (length leg < 2)%nat)
                     [[(0.25, 0.25)]]%float)
    by (constructor; [cbn; lia | constructor]).
  split; [exact Hshort |].
  apply (@MetricFacts.no_legs_zero_metrics flat [[(0.25, 0.25)]]%float (0, 0)%float
           nan 8%float 3%float 25%float false Hshort).
Defined.

(** 1000 m of path at 30 m between photos, on binary64. *)
Lemma photoCount_notNegative_witness :
  (photoCount (N := Number_float) 1000%float 30%float <? lit 0) = false
  /\ ((30%float <=? lit 0) = true \/ (1000%float <=? lit 0) = true ->
      photoCount (N := Number_float) 1000%float 30%float = lit 0).
Proof.
  apply (@MetricFacts.photoCount_notNegative float Number_float SignFacts.SignLaws_float
           1000%float 30%float).
Defined.

(** Three legs, 3 km in all at 8 m/s with 3 s turns, on binary64. *)
Lemma estTime_notNegative_witness :
  (3%float <? lit 0) = false
  /\ (estTime_min (N := Number_float) 3000%float 8%float Runs.kmLegs 3%float <? lit 0) = false.
Proof.
  split; [reflexivity |].
  apply (@MetricFacts.estTime_notNegative float Number_float SignFacts.SignLaws_float
           3000%float 8%float 3%float Runs.kmLegs).
  reflexivity.
Defined.

(** The two legs of [Runs.overLegs] pass the test and stay together. *)
Lemma segmentByCap_single_witness :
  let time := SegmenterFacts.legsTime (T := flat) 15%float 15%float in
  Runs.overLegs <> []
  /\ ((forall pre leg post,
         Runs.overLegs = pre ++ leg :: post -> pre <> [] ->
         (time pre + fst (legTimeAndDist (T := flat) 15%float leg) + 15%float
          >? nmax (lit 60) (4%float * lit 60 - lit 60)) = false)
      <-> segmentByCap (T := flat) Runs.overLegs 15%float 15%float 4%float
          = [closeSegment (T := flat) Runs.overLegs (time Runs.overLegs)]).
Proof.
  cbv zeta. split; [discriminate |].
  apply (@SegmenterFacts.segmentByCap_single float Number_float flat
           Runs.overLegs 15%float 15%float 4%float).
  discriminate.
Defined.

End MoreRuns.

